(** * SimulatorDriver: lifecycle driver of the iOS simulator devices

    A shallow embedding of [detox/src/devices/drivers/SimulatorDriver.js].

    The driver is a JavaScript class whose methods are [async] functions that
    call four collaborators: the simulator backend ([this._applesimutils]),
    the device registry ([this.deviceRegistry]), the event emitter
    ([this.emitter]) and the logger ([log]).  An [await]ed call either
    yields a value or throws; a throw that is not caught leaves the method
    at once.  The embedding is a state-and-exception monad over a [World]
    that holds the state of the collaborators and the trace of every
    interaction the driver had with them, in program order. *)

From Stdlib Require Import List String Ascii ZArith Bool DecimalString DecimalNat Lia.
Import ListNotations.
Open Scope string_scope.
Open Scope list_scope.

Set Implicit Arguments.
Set Warnings "-register-all".

(** ** JavaScript values *)

(** The values the driver passes around.  An object is the list of its own
    enumerable properties, in the order [Object.keys] reports them; the keys
    of an object are pairwise distinct ([wf_obj]). *)
Inductive JSVal : Type :=
| VUndefined
| VNull
| VBool (b : bool)
| VNum (n : Z)
| VStr (s : string)
| VArr (elems : list JSVal)
| VObj (props : list (string * JSVal)).

Definition Obj : Type := list (string * JSVal).

(** [if (v)]: the values JavaScript treats as false. *)
Definition truthy (v : JSVal) : bool :=
  match v with
  | VUndefined | VNull => false
  | VBool b => b
  | VNum n => negb (Z.eqb n 0)
  | VStr s => negb (String.eqb s EmptyString)
  | VArr _ | VObj _ => true
  end.

(** Equality of two values by their contents; on the primitive values (the
    device ids are strings) this is [===]. *)
Fixpoint jsval_eqb (a b : JSVal) : bool :=
  match a, b with
  | VUndefined, VUndefined => true
  | VNull, VNull => true
  | VBool x, VBool y => Bool.eqb x y
  | VNum x, VNum y => Z.eqb x y
  | VStr x, VStr y => String.eqb x y
  | VArr xs, VArr ys =>
      (fix all2 (xs ys : list JSVal) : bool :=
         match xs, ys with
         | [], [] => true
         | x :: xs', y :: ys' => jsval_eqb x y && all2 xs' ys'
         | _, _ => false
         end) xs ys
  | VObj xs, VObj ys =>
      (fix all2 (xs ys : list (string * JSVal)) : bool :=
         match xs, ys with
         | [], [] => true
         | (k, x) :: xs', (k', y) :: ys' =>
             String.eqb k k' && jsval_eqb x y && all2 xs' ys'
         | _, _ => false
         end) xs ys
  | _, _ => false
  end.

Module JsObject.

Definition keys (o : Obj) : list string := map fst o.

Definition wf_obj (o : Obj) : Prop := NoDup (keys o).

(** [o[k]] *)
Fixpoint get (o : Obj) (k : string) : option JSVal :=
  match o with
  | [] => None
  | (k', v) :: rest => if String.eqb k' k then Some v else get rest k
  end.

(** [o[k] = v]: an existing property keeps its place, a new one goes last. *)
Fixpoint set (o : Obj) (k : string) (v : JSVal) : Obj :=
  match o with
  | [] => [(k, v)]
  | (k', v') :: rest =>
      if String.eqb k' k then (k', v) :: rest else (k', v') :: set rest k v
  end.

End JsObject.

(** ** lodash *)

Module Lodash.

Definition string_of_index (i : nat) : string :=
  NilEmpty.string_of_uint (Nat.to_uint i).

Fixpoint indexed (i : nat) (l : list JSVal) : Obj :=
  match l with
  | [] => []
  | v :: rest => (string_of_index i, v) :: indexed (S i) rest
  end.

Definition chars (s : string) : list JSVal :=
  map (fun c => VStr (String c EmptyString)) (list_ascii_of_string s).

(** The own enumerable properties [_.mapKeys] walks over ([baseForOwn]):
    the properties of an object, the indices of an array or of a string,
    nothing for the other values. *)
Definition own_props (v : JSVal) : Obj :=
  match v with
  | VObj o => o
  | VArr l => indexed 0 l
  | VStr s => indexed 0 (chars s)
  | _ => []
  end.

(** [_.mapKeys(object, iteratee)]: a fresh object with the same values
    under the keys [iteratee(value, key)], assigned in enumeration order,
    so that of two properties sent to one key the later one stays. *)
Definition mapKeys (v : JSVal) (iteratee : JSVal -> string -> string) : Obj :=
  fold_left (fun result kv => JsObject.set result (iteratee (snd kv) (fst kv)) (snd kv))
            (own_props v) [].

End Lodash.

(** ** Outcomes, interactions and the world *)

(** What an awaited call can throw: whatever value a collaborator rejects
    with, or the [TypeError] of the language for a call on something that
    has no such method. *)
Inductive Exn : Type :=
| Thrown (v : JSVal)
| TypeError.

Inductive Res (A : Type) : Type :=
| Ok (a : A)
| Err (e : Exn).
Arguments Err {A} e.

(** The methods of [AppleSimUtils] the driver calls. *)
Inductive SimMethod : Type :=
| GetDevicesWithProperties
| Boot
| Install
| Uninstall
| Launch
| Terminate
| SendToHome
| Shutdown
| SetLocation
| SetPermissions
| ResetContentAndSettings
| GetLogsPaths.

(** One interaction of the driver with a collaborator, with its outcome. *)
Inductive Action : Type :=
| SimCall (m : SimMethod) (args : list JSVal) (r : Res JSVal)
| Emit (name : string) (payload : JSVal)
| RegAcquire (name : JSVal) (r : Res JSVal)
| RegFree (deviceId : JSVal)
| SuperCleanup (deviceId bundleId : JSVal) (r : Res JSVal)
| LogError (fields : JSVal) (message : string) (arg : JSVal).

(** The events among the interactions, in the order they were emitted. *)
Fixpoint events (acts : list Action) : list (string * JSVal) :=
  match acts with
  | [] => []
  | Emit name payload :: rest => (name, payload) :: events rest
  | _ :: rest => events rest
  end.

(** The backend calls among the interactions, in the order they were made. *)
Fixpoint sim_calls (acts : list Action) : list (SimMethod * list JSVal * Res JSVal) :=
  match acts with
  | [] => []
  | SimCall m args r :: rest => (m, args, r) :: sim_calls rest
  | _ :: rest => sim_calls rest
  end.

(** ** The lifecycle of a device *)

Inductive DeviceState : Type :=
| Unallocated
| AllocatedCold
| Booted
| AppInstalled
| Running
| ShuttingDown.

(** Modelled from the spec: the driver keeps no record of the state of a
    device, so the state machine of the spec is read off the interactions,
    transition by transition.  Only calls that completed count, and a call
    in a state from which the machine has no such transition leaves the
    state as it is:
    - [Unallocated --acquire--> AllocatedCold];
    - [AllocatedCold --boot--> Booted];
    - [Booted --installApp--> AppInstalled], repeatable;
    - [AppInstalled/Booted --launchApp--> Running];
    - [Running --terminate--> Booted];
    - [Booted/Running --shutdown--> AllocatedCold], through [ShuttingDown]
      while the backend works;
    - the wipe of the backend, the middle step of
      [Any state --resetContentAndSettings--> Booted], leaves the device
      cold from any state, so that the boot that follows ends in [Booted];
    - a freed device is [Unallocated] again. *)
Definition lifecycle_step (deviceId : JSVal) (s : DeviceState) (a : Action)
  : DeviceState :=
  match a with
  | RegAcquire _ (Ok d) =>
      if jsval_eqb d deviceId then
        match s with Unallocated => AllocatedCold | _ => s end
      else s
  | RegFree d => if jsval_eqb d deviceId then Unallocated else s
  | SimCall m (d :: _) (Ok _) =>
      if jsval_eqb d deviceId then
        match m with
        | Boot => match s with AllocatedCold => Booted | _ => s end
        | Install => match s with Booted | AppInstalled => AppInstalled | _ => s end
        | Launch => match s with Booted | AppInstalled => Running | _ => s end
        | Terminate => match s with Running => Booted | _ => s end
        | Shutdown => match s with Booted | Running => AllocatedCold | _ => s end
        | ResetContentAndSettings => AllocatedCold
        | _ => s
        end
      else s
  | _ => s
  end.

Definition lifecycle (acts : list Action) (deviceId : JSVal) : DeviceState :=
  fold_left (lifecycle_step deviceId) acts Unallocated.

Section Driver.

(** The state of the collaborators whose code is not part of the driver. *)
Variable B : Type.

(** Their behaviour: each call answers from the current state, with a value
    or a throw, and leaves a new state.  [acquireDevice] also sees and
    updates the ownership bookkeeping of the registry. *)
Record Collaborators : Type := {
  applesimutils : SimMethod -> list JSVal -> B -> Res JSVal * B;
  acquireDevice : JSVal -> list JSVal -> B -> Res JSVal * list JSVal * B;
  IosDriver_cleanup : JSVal -> JSVal -> B -> Res JSVal * B
}.

Variable C : Collaborators.

Record World : Type := {
  ext : B;
  owned : list JSVal;
  trace : list Action
}.

Definition M (A : Type) : Type := World -> Res A * World.

Definition ret {A} (a : A) : M A := fun w => (Ok a, w).

Definition bind {A A'} (m : M A) (k : A -> M A') : M A' :=
  fun w =>
    match m w with
    | (Ok a, w') => k a w'
    | (Err e, w') => (Err e, w')
    end.

Definition throw {A} (e : Exn) : M A := fun w => (Err e, w).

Definition record (a : Action) (w : World) : World :=
  {| ext := ext w; owned := owned w; trace := trace w ++ [a] |}.

Definition result {A} (m : M A) (w : World) : Res A := fst (m w).

Definition after {A} (m : M A) (w : World) : World := snd (m w).

(** [m], started in [w], has the interactions [acts] with the collaborators,
    in this order, and ends with [r] in [w']. *)
Definition runs {A} (m : M A) (w : World) (acts : list Action) (r : Res A)
  (w' : World) : Prop :=
  m w = (r, w') /\ trace w' = trace w ++ acts.

Notation "x <- m ;; k" := (bind m (fun x => k))
  (at level 61, m at next level, right associativity).
Notation "m ;;; k" := (bind m (fun _ => k))
  (at level 61, right associativity).

(** *** The collaborators *)

(** [await this._applesimutils.<m>(...args)] *)
Definition sim (m : SimMethod) (args : list JSVal) : M JSVal :=
  fun w =>
    let (r, b) := applesimutils C m args (ext w) in
    (r, record (SimCall m args r) {| ext := b; owned := owned w; trace := trace w |}).

(** Modelled from the spec: the event emitter [this.emitter] is inherited from
    the base driver, whose code is not in [SimulatorDriver.js]; the spec takes a
    reliable in-process publish mechanism, so [emit] hands the event over
    and returns. *)
Definition emit (name : string) (payload : JSVal) : M JSVal :=
  fun w => (Ok VUndefined, record (Emit name payload) w).

(** [await this.deviceRegistry.acquireDevice(name)] *)
Definition registry_acquireDevice (name : JSVal) : M JSVal :=
  fun w =>
    let '(r, o, b) := acquireDevice C name (owned w) (ext w) in
    (r, record (RegAcquire name r) {| ext := b; owned := o; trace := trace w |}).

(** Modelled from the spec: [DeviceRegistry.freeDevice] is not in
    [SimulatorDriver.js].  It clears the ownership bookkeeping for the id, which makes the
    device eligible again, and is a no-op, not an error, for an id that was
    never tracked as owned. *)
Definition registry_freeDevice (deviceId : JSVal) : M JSVal :=
  fun w =>
    (Ok VUndefined,
     record (RegFree deviceId)
       {| ext := ext w;
          owned := filter (fun d => negb (jsval_eqb d deviceId)) (owned w);
          trace := trace w |}).

(** [await super.cleanup(deviceId, bundleId)] *)
Definition super_cleanup (deviceId bundleId : JSVal) : M JSVal :=
  fun w =>
    let (r, b) := IosDriver_cleanup C deviceId bundleId (ext w) in
    (r, record (SuperCleanup deviceId bundleId r)
          {| ext := b; owned := owned w; trace := trace w |}).

(** [log.error(fields, `${message}${arg}`)] *)
Definition log_error (fields : JSVal) (message : string) (arg : JSVal) : M JSVal :=
  fun w => (Ok VUndefined, record (LogError fields message arg) w).

(** [devices.map(f)]: defined on arrays; anything else has no [map] to call. *)
Definition array_map (devices : JSVal) (f : JSVal -> JSVal) : M JSVal :=
  match devices with
  | VArr l => ret (VArr (map f l))
  | _ => throw TypeError
  end.

(** *** The class [SimulatorDriver] *)

Definition renameUDID (_value : JSVal) (key : string) : string :=
  if String.eqb key "udid" then "id" else key.

Definition remapSimUtilsObject (device : JSVal) : JSVal :=
  VObj (Lodash.mapKeys device renameUDID).

(** The first declaration of [_createDeviceWithProperties] in the class body. *)
Definition _createDeviceWithProperties_1 (properties : JSVal) : M JSVal :=
  device <- sim GetDevicesWithProperties [properties] ;;
  ret (remapSimUtilsObject device).

Definition _getDevicesWithProperties_1 (properties : JSVal) : M JSVal :=
  devices <- sim GetDevicesWithProperties [properties] ;;
  array_map devices remapSimUtilsObject.

(** The second declaration of [_createDeviceWithProperties] in the class body. *)
Definition _createDeviceWithProperties_2 (properties : JSVal) : M JSVal :=
  devices <- sim GetDevicesWithProperties [properties] ;;
  array_map devices remapSimUtilsObject.

(** The declarations above in the order of the class body.  A class body
    defines its methods on the prototype one after the other, so a name
    declared twice is bound to its last declaration. *)
Definition class_body : list (string * (JSVal -> M JSVal)) :=
  [ ("_createDeviceWithProperties", _createDeviceWithProperties_1);
    ("_getDevicesWithProperties", _getDevicesWithProperties_1);
    ("_createDeviceWithProperties", _createDeviceWithProperties_2) ].

Fixpoint method_of (body : list (string * (JSVal -> M JSVal))) (name : string)
  (bound : JSVal -> M JSVal) : JSVal -> M JSVal :=
  match body with
  | [] => bound
  | (n, f) :: rest => method_of rest name (if String.eqb n name then f else bound)
  end.

(** [this.<name>] for a name the class declares ([TypeError] on a call
    otherwise). *)
Definition this_method (name : string) : JSVal -> M JSVal :=
  method_of class_body name (fun _ => throw TypeError).

Definition _createDeviceWithProperties : JSVal -> M JSVal :=
  this_method "_createDeviceWithProperties".

Definition _getDevicesWithProperties : JSVal -> M JSVal :=
  this_method "_getDevicesWithProperties".

(** What the constructor hands to [new DeviceRegistry({...})]. *)
Record RegistryCapabilities : Type := {
  createDeviceWithProperties : JSVal -> M JSVal;
  getDevicesWithProperties : JSVal -> M JSVal
}.

Definition constructor_deviceRegistry : RegistryCapabilities :=
  {| createDeviceWithProperties := _createDeviceWithProperties;
     getDevicesWithProperties := _getDevicesWithProperties |}.

Definition boot (deviceId : JSVal) : M JSVal :=
  coldBoot <- sim Boot [deviceId] ;;
  emit "bootDevice" (VObj [("coldBoot", coldBoot); ("deviceId", deviceId)]) ;;;
  ret VUndefined.

Definition cleanup (deviceId bundleId : JSVal) : M JSVal :=
  registry_freeDevice deviceId ;;;
  super_cleanup deviceId bundleId ;;;
  ret VUndefined.

Definition acquireFreeDevice (name : JSVal) : M JSVal :=
  deviceId <- registry_acquireDevice name ;;
  (if truthy deviceId
   then boot deviceId
   else log_error (VObj [("event", VStr "ACQUIRE_DEVICE_ERROR")])
                  "Unable to acquire free device: " name) ;;;
  ret deviceId.

Definition installApp (deviceId binaryPath : JSVal) : M JSVal :=
  sim Install [deviceId; binaryPath] ;;;
  ret VUndefined.

Definition uninstallApp (deviceId bundleId : JSVal) : M JSVal :=
  sim Uninstall [deviceId; bundleId] ;;;
  ret VUndefined.

Definition launchApp (deviceId bundleId launchArgs : JSVal) : M JSVal :=
  emit "beforeLaunchApp"
       (VObj [("bundleId", bundleId); ("deviceId", deviceId);
              ("launchArgs", launchArgs)]) ;;;
  pid <- sim Launch [deviceId; bundleId; launchArgs] ;;
  emit "launchApp"
       (VObj [("bundleId", bundleId); ("deviceId", deviceId);
              ("launchArgs", launchArgs); ("pid", pid)]) ;;;
  ret pid.

Definition terminate (deviceId bundleId : JSVal) : M JSVal :=
  sim Terminate [deviceId; bundleId] ;;;
  ret VUndefined.

Definition sendToHome (deviceId : JSVal) : M JSVal :=
  sim SendToHome [deviceId].

Definition shutdown (deviceId : JSVal) : M JSVal :=
  sim Shutdown [deviceId] ;;;
  emit "shutdownDevice" (VObj [("deviceId", deviceId)]) ;;;
  ret VUndefined.

Definition setLocation (deviceId lat lon : JSVal) : M JSVal :=
  sim SetLocation [deviceId; lat; lon] ;;;
  ret VUndefined.

Definition setPermissions (deviceId bundleId permissions : JSVal) : M JSVal :=
  sim SetPermissions [deviceId; bundleId; permissions] ;;;
  ret VUndefined.

Definition resetContentAndSettings (deviceId : JSVal) : M JSVal :=
  shutdown deviceId ;;;
  sim ResetContentAndSettings [deviceId] ;;;
  boot deviceId ;;;
  ret VUndefined.

Definition getLogsPaths (deviceId : JSVal) : M JSVal :=
  sim GetLogsPaths [deviceId].

End Driver.

Arguments ret {B A} a w.
Arguments throw {B A} e w.
Arguments result {B A} m w.
Arguments after {B A} m w.
Arguments runs {B A} m w acts r w'.

(** ** Payloads and outcomes *)

(** One property after [_.mapKeys(device, renameUDID)] moved it. *)
Definition renamed (kv : string * JSVal) : string * JSVal :=
  (renameUDID (snd kv) (fst kv), snd kv).

Definition bootDevice_payload (coldBoot deviceId : JSVal) : JSVal :=
  VObj [("coldBoot", coldBoot); ("deviceId", deviceId)].

Definition shutdownDevice_payload (deviceId : JSVal) : JSVal :=
  VObj [("deviceId", deviceId)].

Definition beforeLaunchApp_payload (bundleId deviceId launchArgs : JSVal) : JSVal :=
  VObj [("bundleId", bundleId); ("deviceId", deviceId); ("launchArgs", launchArgs)].

Definition launchApp_payload (bundleId deviceId launchArgs pid : JSVal) : JSVal :=
  VObj [("bundleId", bundleId); ("deviceId", deviceId); ("launchArgs", launchArgs);
        ("pid", pid)].

(** What a call does after a collaborator answered [rb]: go on with [acts]
    and complete, or stop with the error it got. *)
Definition and_then (rb : Res JSVal) (acts : JSVal -> list Action) : list Action :=
  match rb with
  | Ok v => acts v
  | Err _ => []
  end.

Definition completes (rb : Res JSVal) (value : JSVal -> JSVal) : Res JSVal :=
  match rb with
  | Ok v => Ok (value v)
  | Err e => Err e
  end.

(** The interactions and the outcome of [resetContentAndSettings(deviceId)]:
    one case for each step that can fail, and one for the complete run. *)
Inductive reset_trace (d : JSVal) : list Action -> Res JSVal -> Prop :=
| reset_shutdown_failed e :
    reset_trace d [SimCall Shutdown [d] (Err e)] (Err e)
| reset_wipe_failed v e :
    reset_trace d
      [SimCall Shutdown [d] (Ok v);
       Emit "shutdownDevice" (shutdownDevice_payload d);
       SimCall ResetContentAndSettings [d] (Err e)]
      (Err e)
| reset_boot_failed v v' e :
    reset_trace d
      [SimCall Shutdown [d] (Ok v);
       Emit "shutdownDevice" (shutdownDevice_payload d);
       SimCall ResetContentAndSettings [d] (Ok v');
       SimCall Boot [d] (Err e)]
      (Err e)
| reset_done v v' coldBoot :
    reset_trace d
      [SimCall Shutdown [d] (Ok v);
       Emit "shutdownDevice" (shutdownDevice_payload d);
       SimCall ResetContentAndSettings [d] (Ok v');
       SimCall Boot [d] (Ok coldBoot);
       Emit "bootDevice" (bootDevice_payload coldBoot d)]
      (Ok VUndefined).

(** ** A scripted backend *)

(** A backend without devices in which the calls listed in [fails] reject
    and the others answer at once: a boot is cold, a launch gives pid 1234,
    an enumeration finds nothing.  The registry hands out ["ABCD-1"]. *)
Definition backend_failure : Exn := Thrown (VStr "backend failure").

Definition scripted (fails : SimMethod -> bool) : Collaborators unit :=
  {| applesimutils := fun m _ _ =>
       (if fails m then Err backend_failure
        else Ok match m with
                | Boot => VBool true
                | Launch => VNum 1234
                | GetDevicesWithProperties => VArr []
                | _ => VUndefined
                end, tt);
     acquireDevice := fun _ o _ => (Ok (VStr "ABCD-1"), VStr "ABCD-1" :: o, tt);
     IosDriver_cleanup := fun _ _ _ => (Ok VUndefined, tt) |}.

Definition reliable : Collaborators unit := scripted (fun _ => false).

Definition fresh : World unit := {| ext := tt; owned := []; trace := [] |}.

(** A descriptor as the backend lists it. *)
Definition sim_descriptor : Obj :=
  [("udid", VStr "ABCD-1"); ("name", VStr "iPhone-Test"); ("os", VStr "17.0")].

Definition booted : World unit :=
  after (acquireFreeDevice reliable (VStr "iPhone-Test")) fresh.

(** ** The spec's wording of two operations, to compare with the code *)

(** [terminate] as the spec words it: on a device that is not [Running] the
    call is rejected and the backend is not called. *)
Definition terminate_rejects_unless_Running : Prop :=
  forall (B : Type) (C : Collaborators B) (w : World B) (d b : JSVal),
    lifecycle (trace w) d <> Running ->
    (exists e, result (terminate C d b) w = Err e)
    /\ sim_calls (trace (after (terminate C d b) w)) = sim_calls (trace w).

(** [remapSimUtilsObject] as the spec words it: every property other than
    [udid] is found in the result under its own key with its own value. *)
Definition remap_keeps_other_properties : Prop :=
  forall (o : Obj) (k : string) (v : JSVal),
    JsObject.wf_obj o ->
    k <> "udid" ->
    JsObject.get o k = Some v ->
    JsObject.get (Lodash.own_props (remapSimUtilsObject (VObj o))) k = Some v.

(** ** Sessions *)

(** A call of a method of the driver by its user (the registry, for the two
    capabilities the constructor hands to it). *)
Inductive Call : Type :=
| CallAcquireFreeDevice (name : JSVal)
| CallCleanup (deviceId bundleId : JSVal)
| CallBoot (deviceId : JSVal)
| CallInstallApp (deviceId binaryPath : JSVal)
| CallUninstallApp (deviceId bundleId : JSVal)
| CallLaunchApp (deviceId bundleId launchArgs : JSVal)
| CallTerminate (deviceId bundleId : JSVal)
| CallSendToHome (deviceId : JSVal)
| CallShutdown (deviceId : JSVal)
| CallSetLocation (deviceId lat lon : JSVal)
| CallSetPermissions (deviceId bundleId permissions : JSVal)
| CallResetContentAndSettings (deviceId : JSVal)
| CallGetLogsPaths (deviceId : JSVal)
| CallCreateDeviceWithProperties (properties : JSVal)
| CallGetDevicesWithProperties (properties : JSVal).

Section Sessions.

Variable B : Type.
Variable C : Collaborators B.

Definition invoke (c : Call) : M B JSVal :=
  match c with
  | CallAcquireFreeDevice name => acquireFreeDevice C name
  | CallCleanup d b => cleanup C d b
  | CallBoot d => boot C d
  | CallInstallApp d p => installApp C d p
  | CallUninstallApp d b => uninstallApp C d b
  | CallLaunchApp d b args => launchApp C d b args
  | CallTerminate d b => terminate C d b
  | CallSendToHome d => sendToHome C d
  | CallShutdown d => shutdown C d
  | CallSetLocation d lat lon => setLocation C d lat lon
  | CallSetPermissions d b p => setPermissions C d b p
  | CallResetContentAndSettings d => resetContentAndSettings C d
  | CallGetLogsPaths d => getLogsPaths C d
  | CallCreateDeviceWithProperties q =>
      createDeviceWithProperties (constructor_deviceRegistry C) q
  | CallGetDevicesWithProperties q =>
      getDevicesWithProperties (constructor_deviceRegistry C) q
  end.

(** The calls of a user one after the other; the user goes on whatever a
    call returned or threw. *)
Fixpoint session (calls : list Call) (w : World B) : World B :=
  match calls with
  | [] => w
  | c :: rest => session rest (after (invoke c) w)
  end.

(** The worlds after [acts] more interactions, for [acts] of a given kind. *)
Definition extends (P : list Action -> Prop) (w w' : World B) : Prop :=
  exists acts, trace w' = trace w ++ acts /\ P acts.

End Sessions.

(** A driver that had no interaction yet. *)
Definition start {B} (b : B) (o : list JSVal) : World B :=
  {| ext := b; owned := o; trace := [] |}.

(** *** The interactions of one call *)

Definition boot_acts (d : JSVal) (rb : Res JSVal) : list Action :=
  SimCall Boot [d] rb
    :: and_then rb (fun coldBoot => [Emit "bootDevice" (bootDevice_payload coldBoot d)]).

Definition shutdown_acts (d : JSVal) (rb : Res JSVal) : list Action :=
  SimCall Shutdown [d] rb
    :: and_then rb (fun _ => [Emit "shutdownDevice" (shutdownDevice_payload d)]).

Definition launchApp_acts (d b args : JSVal) (rb : Res JSVal) : list Action :=
  Emit "beforeLaunchApp" (beforeLaunchApp_payload b d args)
    :: SimCall Launch [d; b; args] rb
    :: and_then rb (fun pid => [Emit "launchApp" (launchApp_payload b d args pid)]).

Definition reset_acts (d : JSVal) (rs rw rb : Res JSVal) : list Action :=
  shutdown_acts d rs
    ++ and_then rs (fun _ =>
         SimCall ResetContentAndSettings [d] rw
           :: and_then rw (fun _ => boot_acts d rb)).

Definition acquireFreeDevice_acts (name : JSVal) (ra rb : Res JSVal) : list Action :=
  RegAcquire name ra
    :: and_then ra (fun deviceId =>
         if truthy deviceId then boot_acts deviceId rb
         else [LogError (VObj [("event", VStr "ACQUIRE_DEVICE_ERROR")])
                        "Unable to acquire free device: " name]).

(** The methods that are one call to the backend and nothing else. *)
Definition delegation (c : Call) : option (SimMethod * list JSVal) :=
  match c with
  | CallInstallApp d p => Some (Install, [d; p])
  | CallUninstallApp d b => Some (Uninstall, [d; b])
  | CallTerminate d b => Some (Terminate, [d; b])
  | CallSendToHome d => Some (SendToHome, [d])
  | CallSetLocation d lat lon => Some (SetLocation, [d; lat; lon])
  | CallSetPermissions d b p => Some (SetPermissions, [d; b; p])
  | CallGetLogsPaths d => Some (GetLogsPaths, [d])
  | CallCreateDeviceWithProperties q => Some (GetDevicesWithProperties, [q])
  | CallGetDevicesWithProperties q => Some (GetDevicesWithProperties, [q])
  | _ => None
  end.

Inductive call_trace : Call -> list Action -> Prop :=
| trace_acquireFreeDevice name ra rb :
    call_trace (CallAcquireFreeDevice name) (acquireFreeDevice_acts name ra rb)
| trace_cleanup d b rs :
    call_trace (CallCleanup d b) [RegFree d; SuperCleanup d b rs]
| trace_boot d rb :
    call_trace (CallBoot d) (boot_acts d rb)
| trace_launchApp d b args rb :
    call_trace (CallLaunchApp d b args) (launchApp_acts d b args rb)
| trace_shutdown d rb :
    call_trace (CallShutdown d) (shutdown_acts d rb)
| trace_reset d rs rw rb :
    call_trace (CallResetContentAndSettings d) (reset_acts d rs rw rb)
| trace_delegation c m args r :
    delegation c = Some (m, args) ->
    call_trace c [SimCall m args r].

(** *** The order of the events *)

(** What has to come right before an interaction [a]: nothing for
    [beforeLaunchApp] and for what is not an event; the successful boot of
    the backend, of the same device and with the answer the event carries,
    for [bootDevice]; the successful shutdown for [shutdownDevice]; the
    successful launch with the same arguments, and before that launch the
    [beforeLaunchApp] of the same arguments, for [launchApp].  The driver has
    no other event. *)
Definition justified (before_last last : option Action) (a : Action) : Prop :=
  match a with
  | Emit name payload =>
      (exists b d args,
         name = "beforeLaunchApp" /\ payload = beforeLaunchApp_payload b d args)
      \/ (exists d coldBoot,
            name = "bootDevice" /\ payload = bootDevice_payload coldBoot d
            /\ last = Some (SimCall Boot [d] (Ok coldBoot)))
      \/ (exists d v,
            name = "shutdownDevice" /\ payload = shutdownDevice_payload d
            /\ last = Some (SimCall Shutdown [d] (Ok v)))
      \/ (exists b d args pid,
            name = "launchApp" /\ payload = launchApp_payload b d args pid
            /\ last = Some (SimCall Launch [d; b; args] (Ok pid))
            /\ before_last
               = Some (Emit "beforeLaunchApp" (beforeLaunchApp_payload b d args)))
  | _ => True
  end.

(** Every interaction of [acts] is justified by the two before it;
    [before_last] and [last] are the two before [acts]. *)
Fixpoint ordered_from (before_last last : option Action) (acts : list Action) : Prop :=
  match acts with
  | [] => True
  | a :: rest => justified before_last last a /\ ordered_from last (Some a) rest
  end.

Definition ordered (acts : list Action) : Prop := ordered_from None None acts.

(** The same for an event that comes after the interactions [pre], said
    with [pre] itself. *)
Definition event_context (pre : list Action) (name : string) (payload : JSVal) : Prop :=
  (exists b d args,
     name = "beforeLaunchApp" /\ payload = beforeLaunchApp_payload b d args)
  \/ (exists d coldBoot pre',
        name = "bootDevice" /\ payload = bootDevice_payload coldBoot d
        /\ pre = pre' ++ [SimCall Boot [d] (Ok coldBoot)])
  \/ (exists d v pre',
        name = "shutdownDevice" /\ payload = shutdownDevice_payload d
        /\ pre = pre' ++ [SimCall Shutdown [d] (Ok v)])
  \/ (exists b d args pid pre',
        name = "launchApp" /\ payload = launchApp_payload b d args pid
        /\ pre = pre' ++ [Emit "beforeLaunchApp" (beforeLaunchApp_payload b d args);
                          SimCall Launch [d; b; args] (Ok pid)]).

(** What has to come right after an interaction [a]: its event after a
    successful boot, shutdown or launch of the backend, and the launch of
    the backend after [beforeLaunchApp]. *)
Definition followed (a : Action) (rest : list Action) : Prop :=
  match a with
  | SimCall Boot [d] (Ok coldBoot) =>
      exists rest', rest = Emit "bootDevice" (bootDevice_payload coldBoot d) :: rest'
  | SimCall Shutdown [d] (Ok _) =>
      exists rest', rest = Emit "shutdownDevice" (shutdownDevice_payload d) :: rest'
  | SimCall Launch [d; b; args] (Ok pid) =>
      exists rest', rest = Emit "launchApp" (launchApp_payload b d args pid) :: rest'
  | Emit name payload =>
      name = "beforeLaunchApp" ->
      exists b d args r rest',
        payload = beforeLaunchApp_payload b d args
        /\ rest = SimCall Launch [d; b; args] r :: rest'
  | _ => True
  end.

Fixpoint announced (acts : list Action) : Prop :=
  match acts with
  | [] => True
  | a :: rest => followed a rest /\ announced rest
  end.

(** The calls that go to the registry. *)
Definition uses_registry (c : Call) : bool :=
  match c with
  | CallAcquireFreeDevice _ | CallCleanup _ _ => true
  | _ => false
  end.

(** The interactions with the registry. *)
Definition is_registry_call (a : Action) : bool :=
  match a with
  | RegAcquire _ _ | RegFree _ => true
  | _ => false
  end.

(** The calls that emit events. *)
Definition emits_events (c : Call) : bool :=
  match c with
  | CallAcquireFreeDevice _ | CallBoot _ | CallLaunchApp _ _ _ | CallShutdown _
  | CallResetContentAndSettings _ => true
  | _ => false
  end.

(** ** Normalized descriptors *)

(** An object that has no property [udid] of its own. *)
Definition normalized (device : JSVal) : Prop :=
  exists o, device = VObj o /\ JsObject.wf_obj o /\ JsObject.get o "udid" = None.

(** A descriptor that has the property [id] as well as [udid]. *)
Definition sim_descriptor_with_id : Obj :=
  [("name", VStr "iPhone-Test"); ("id", VStr "SIM-1"); ("udid", VStr "ABCD-1");
   ("os", VStr "17.0")].

(** The walk of [_.mapKeys] over the properties [props], from the result
    [acc] so far. *)
Definition assign_renamed (acc props : Obj) : Obj :=
  fold_left (fun result kv => JsObject.set result (renameUDID (snd kv) (fst kv)) (snd kv))
            props acc.

(** ** The methods that do not talk to the simulator *)

Module Host.

(** [v.k] for a key [k] that is no built-in property: a [TypeError] on
    [undefined] and [null], the own property of an object, [undefined]
    otherwise. *)
Definition get_prop (v : JSVal) (k : string) : Res JSVal :=
  match v with
  | VUndefined | VNull => Err TypeError
  | VObj o => Ok match JsObject.get o k with
                 | Some x => x
                 | None => VUndefined
                 end
  | _ => Ok VUndefined
  end.

(** How a method that throws [new Error(message)] ends. *)
Inductive Outcome (A : Type) : Type :=
| Returns (a : A)
| ThrowsError (message : string).
Arguments ThrowsError {A} message.

Definition double_quote : string := String (ascii_of_nat 34) EmptyString.

Definition not_found_message (appPath : string) : string :=
  "field CFBundleIdentifier not found inside Info.plist of app binary at " ++ appPath.

Section Environment.

(** [path.join] of Node, [exec] of [child-process-promise] with what its
    promise settles to for a command, and [_.trim] of lodash. *)
Variable path_join : string -> string -> string.
Variable exec : string -> Res JSVal.
Variable trim : JSVal -> string.

(** The outcomes of [configuration.throwOnEmptyBinaryPath()] and of
    [configuration.throwOnEmptyName()]. *)
Variable throwOnEmptyBinaryPath : Res JSVal.
Variable throwOnEmptyName : Res JSVal.

Definition PlistBuddy_command (appPath : string) : string :=
  "/usr/libexec/PlistBuddy -c " ++ double_quote ++ "Print CFBundleIdentifier"
    ++ double_quote ++ " " ++ double_quote ++ path_join appPath "Info.plist"
    ++ double_quote.

(** The [try] block of [getBundleIdFromBinary]; [new Error()] is an object
    without own enumerable properties. *)
Definition getBundleIdFromBinary_try (appPath : string) : Res string :=
  match exec (PlistBuddy_command appPath) with
  | Err e => Err e
  | Ok result =>
      match get_prop result "stdout" with
      | Err e => Err e
      | Ok stdout =>
          let bundleId := trim stdout in
          if String.eqb bundleId EmptyString then Err (Thrown (VObj []))
          else Ok bundleId
      end
  end.

Definition getBundleIdFromBinary (appPath : string) : Outcome string :=
  match getBundleIdFromBinary_try appPath with
  | Ok bundleId => Returns bundleId
  | Err _ex => ThrowsError (not_found_message appPath)
  end.

Definition validateDeviceConfig (deviceConfig : JSVal) : Res JSVal :=
  match get_prop deviceConfig "binaryPath" with
  | Err e => Err e
  | Ok binaryPath =>
      match (if truthy binaryPath then Ok VUndefined else throwOnEmptyBinaryPath) with
      | Err e => Err e
      | Ok _ =>
          match get_prop deviceConfig "name" with
          | Err e => Err e
          | Ok name =>
              match (if truthy name then Ok VUndefined else throwOnEmptyName) with
              | Err e => Err e
              | Ok _ => Ok VUndefined
              end
          end
      end
  end.

End Environment.

End Host.

(** * Properties *)

(** ** Values and objects *)

Lemma jsval_eqb_refl (v : JSVal) : jsval_eqb v v = true.
Proof.
  revert v. fix jsval_eqb_refl 1.
  intros v. destruct v as [| |b|n|s|l|o]; simpl; try reflexivity.
  - apply Bool.eqb_reflx.
  - apply Z.eqb_refl.
  - apply String.eqb_refl.
  - induction l as [|x l IH]; [reflexivity|].
    now rewrite (jsval_eqb_refl x), IH.
  - induction o as [|[k x] o IH]; [reflexivity|].
    now rewrite String.eqb_refl, (jsval_eqb_refl x), IH.
Qed.

Lemma events_app (l1 l2 : list Action) : events (l1 ++ l2) = events l1 ++ events l2.
Proof.
  induction l1 as [|a l1 IH]; [reflexivity|].
  destruct a; simpl; now rewrite IH.
Qed.

Lemma sim_calls_app (l1 l2 : list Action) :
  sim_calls (l1 ++ l2) = sim_calls l1 ++ sim_calls l2.
Proof.
  induction l1 as [|a l1 IH]; [reflexivity|].
  destruct a; simpl; now rewrite IH.
Qed.

Lemma lifecycle_app (l1 l2 : list Action) (d : JSVal) :
  lifecycle (l1 ++ l2) d = fold_left (lifecycle_step d) l2 (lifecycle l1 d).
Proof. apply fold_left_app. Qed.

(** ** The monad *)

Section MonadLaws.

Variable B : Type.
Variable C : Collaborators B.

Lemma runs_result A (m : M B A) w acts r w' :
  runs m w acts r w' ->
  result m w = r /\ after m w = w' /\ trace (after m w) = trace w ++ acts.
Proof.
  unfold runs, result, after. intros [-> Ht]. simpl. auto.
Qed.

Lemma runs_ret A (a : A) (w : World B) : runs (ret a) w [] (Ok a) w.
Proof. split; [reflexivity | now rewrite app_nil_r]. Qed.

Lemma runs_throw A (e : Exn) (w : World B) : runs (@throw B A e) w [] (Err e) w.
Proof. split; [reflexivity | now rewrite app_nil_r]. Qed.

Lemma runs_bind_Ok A A' (m : M B A) (k : A -> M B A') w a1 x w1 a2 r w2 :
  runs m w a1 (Ok x) w1 ->
  runs (k x) w1 a2 r w2 ->
  runs (bind m k) w (a1 ++ a2) r w2.
Proof.
  unfold runs, bind. intros [-> H1] [-> H2]. split; [reflexivity|].
  now rewrite H2, H1, app_assoc.
Qed.

Lemma runs_bind_Err A A' (m : M B A) (k : A -> M B A') w a1 e w1 :
  runs m w a1 (Err e) w1 ->
  runs (bind m k) w a1 (Err e) w1.
Proof.
  unfold runs, bind. intros [-> H1]. auto.
Qed.

Lemma runs_sim m args (w : World B) :
  let r := fst (applesimutils C m args (ext w)) in
  exists w', runs (sim C m args) w [SimCall m args r] r w' /\ owned w' = owned w.
Proof.
  unfold runs, sim. simpl.
  destruct (applesimutils C m args (ext w)) as [r b]. simpl.
  eexists. split; [split|]; reflexivity.
Qed.

Lemma runs_emit name payload (w : World B) :
  runs (emit name payload) w [Emit name payload] (Ok VUndefined)
       (record (Emit name payload) w).
Proof. split; reflexivity. Qed.

Lemma runs_log_error fields message arg (w : World B) :
  runs (log_error fields message arg) w [LogError fields message arg]
       (Ok VUndefined) (record (LogError fields message arg) w).
Proof. split; reflexivity. Qed.

Lemma runs_registry_freeDevice d (w : World B) :
  exists w', runs (registry_freeDevice d) w [RegFree d] (Ok VUndefined) w'
             /\ ext w' = ext w
             /\ owned w' = filter (fun x => negb (jsval_eqb x d)) (owned w).
Proof.
  eexists. split; [split|split]; reflexivity.
Qed.

Lemma runs_registry_acquireDevice name (w : World B) :
  let r := fst (fst (acquireDevice C name (owned w) (ext w))) in
  exists w', runs (registry_acquireDevice C name) w [RegAcquire name r] r w'.
Proof.
  unfold runs, registry_acquireDevice. simpl.
  destruct (acquireDevice C name (owned w) (ext w)) as [[r o] b]. simpl.
  eexists. split; reflexivity.
Qed.

Lemma runs_super_cleanup d b (w : World B) :
  let r := fst (IosDriver_cleanup C d b (ext w)) in
  exists w', runs (super_cleanup C d b) w [SuperCleanup d b r] r w'
             /\ owned w' = owned w.
Proof.
  unfold runs, super_cleanup. simpl.
  destruct (IosDriver_cleanup C d b (ext w)) as [r x]. simpl.
  eexists. split; [split|]; reflexivity.
Qed.

End MonadLaws.

(** ** The lifecycle operations *)

Section DriverProperties.

Variable B : Type.
Variable C : Collaborators B.

Lemma boot_runs (w : World B) d :
  exists rb w',
    runs (boot C d) w
         (SimCall Boot [d] rb
            :: and_then rb (fun coldBoot => [Emit "bootDevice" (bootDevice_payload coldBoot d)]))
         (completes rb (fun _ => VUndefined)) w'
    /\ rb = fst (applesimutils C Boot [d] (ext w))
    /\ owned w' = owned w.
Proof.
  destruct (runs_sim C Boot [d] w) as (w1 & H1 & Ho).
  destruct (fst (applesimutils C Boot [d] (ext w))) as [coldBoot|e] eqn:E.
  - exists (Ok coldBoot), (record (Emit "bootDevice" (bootDevice_payload coldBoot d)) w1).
    split; [|split; [reflexivity | exact Ho]].
    unfold boot.
    apply (runs_bind_Ok (a1 := [_]) (a2 := [_]) _ H1).
    apply (runs_bind_Ok (a1 := [_]) (a2 := []) _ (runs_emit _ _ _)).
    apply runs_ret.
  - exists (Err e), w1. split; [|split; [reflexivity | exact Ho]].
    unfold boot. apply runs_bind_Err. exact H1.
Qed.

Lemma shutdown_runs (w : World B) d :
  exists rb w',
    runs (shutdown C d) w
         (SimCall Shutdown [d] rb
            :: and_then rb (fun _ => [Emit "shutdownDevice" (shutdownDevice_payload d)]))
         (completes rb (fun _ => VUndefined)) w'
    /\ rb = fst (applesimutils C Shutdown [d] (ext w))
    /\ owned w' = owned w.
Proof.
  destruct (runs_sim C Shutdown [d] w) as (w1 & H1 & Ho).
  destruct (fst (applesimutils C Shutdown [d] (ext w))) as [v|e] eqn:E.
  - exists (Ok v), (record (Emit "shutdownDevice" (shutdownDevice_payload d)) w1).
    split; [|split; [reflexivity | exact Ho]].
    unfold shutdown.
    apply (runs_bind_Ok (a1 := [_]) (a2 := [_]) _ H1).
    apply (runs_bind_Ok (a1 := [_]) (a2 := []) _ (runs_emit _ _ _)).
    apply runs_ret.
  - exists (Err e), w1. split; [|split; [reflexivity | exact Ho]].
    unfold shutdown. apply runs_bind_Err. exact H1.
Qed.

(** C2.  [boot(deviceId)] first calls the backend.  When the backend answers
    with [coldBoot], the event [bootDevice] with the payload
    [{coldBoot, deviceId}] is emitted right after that call and [boot]
    completes; when the backend fails, the call to the backend is the only
    interaction, no event is emitted, and [boot] throws the error of the
    backend. *)
Theorem boot_emits_bootDevice_only_after_backend_success (w : World B) d :
  match fst (applesimutils C Boot [d] (ext w)) with
  | Ok coldBoot =>
      trace (after (boot C d) w)
      = trace w ++ [SimCall Boot [d] (Ok coldBoot);
                    Emit "bootDevice" (VObj [("coldBoot", coldBoot); ("deviceId", d)])]
      /\ result (boot C d) w = Ok VUndefined
  | Err e =>
      trace (after (boot C d) w) = trace w ++ [SimCall Boot [d] (Err e)]
      /\ events (trace (after (boot C d) w)) = events (trace w)
      /\ result (boot C d) w = Err e
  end.
Proof.
  destruct (boot_runs w d) as (rb & w' & H & Hrb & _).
  rewrite <- Hrb.
  apply runs_result in H as (Hr & _ & Ht).
  destruct rb as [coldBoot|e]; simpl in *.
  - auto.
  - rewrite Ht, events_app. simpl. rewrite app_nil_r. auto.
Qed.

(** C3.  [shutdown(deviceId)] first calls the backend.  When the backend
    completes the shutdown, the event [shutdownDevice] with the payload
    [{deviceId}] is emitted right after that call; when the backend fails,
    no event is emitted and [shutdown] throws the error of the backend. *)
Theorem shutdown_emits_shutdownDevice_only_after_backend_success (w : World B) d :
  match fst (applesimutils C Shutdown [d] (ext w)) with
  | Ok v =>
      trace (after (shutdown C d) w)
      = trace w ++ [SimCall Shutdown [d] (Ok v);
                    Emit "shutdownDevice" (VObj [("deviceId", d)])]
      /\ result (shutdown C d) w = Ok VUndefined
  | Err e =>
      trace (after (shutdown C d) w) = trace w ++ [SimCall Shutdown [d] (Err e)]
      /\ events (trace (after (shutdown C d) w)) = events (trace w)
      /\ result (shutdown C d) w = Err e
  end.
Proof.
  destruct (shutdown_runs w d) as (rb & w' & H & Hrb & _).
  rewrite <- Hrb.
  apply runs_result in H as (Hr & _ & Ht).
  destruct rb as [v|e]; simpl in *.
  - auto.
  - rewrite Ht, events_app. simpl. rewrite app_nil_r. auto.
Qed.

(** C1.  [launchApp(deviceId, bundleId, launchArgs)] emits [beforeLaunchApp]
    with [{bundleId, deviceId, launchArgs}], then calls the launch primitive
    of the backend.  When the backend answers with [pid], it emits
    [launchApp] with [{bundleId, deviceId, launchArgs, pid}] right after and
    returns [pid]; both events carry the [deviceId] and the [bundleId] of
    the call. *)
Theorem launchApp_events_around_backend_launch (w : World B) d b args :
  let before :=
    Emit "beforeLaunchApp"
         (VObj [("bundleId", b); ("deviceId", d); ("launchArgs", args)]) in
  match fst (applesimutils C Launch [d; b; args] (ext w)) with
  | Ok pid =>
      trace (after (launchApp C d b args) w)
      = trace w ++ [before;
                    SimCall Launch [d; b; args] (Ok pid);
                    Emit "launchApp"
                         (VObj [("bundleId", b); ("deviceId", d);
                                ("launchArgs", args); ("pid", pid)])]
      /\ result (launchApp C d b args) w = Ok pid
  | Err e =>
      trace (after (launchApp C d b args) w)
      = trace w ++ [before; SimCall Launch [d; b; args] (Err e)]
      /\ result (launchApp C d b args) w = Err e
  end.
Proof.
  intros before.
  pose proof (runs_emit "beforeLaunchApp" (beforeLaunchApp_payload b d args) w) as H0.
  destruct (runs_sim C Launch [d; b; args] (record before w)) as (w1 & H1 & _).
  change (ext (record before w)) with (ext w) in H1.
  destruct (fst (applesimutils C Launch [d; b; args] (ext w))) as [pid|e].
  - assert (H : runs (launchApp C d b args) w
                  ([before] ++ [SimCall Launch [d; b; args] (Ok pid)]
                   ++ [Emit "launchApp" (launchApp_payload b d args pid)] ++ [])
                  (Ok pid)
                  (record (Emit "launchApp" (launchApp_payload b d args pid)) w1)).
    { unfold launchApp.
      apply (runs_bind_Ok _ H0), (runs_bind_Ok _ H1).
      apply (runs_bind_Ok _ (runs_emit _ _ _)), runs_ret. }
    apply runs_result in H as (Hr & _ & Ht). auto.
  - assert (H : runs (launchApp C d b args) w
                  ([before] ++ [SimCall Launch [d; b; args] (Err e)]) (Err e) w1).
    { unfold launchApp. apply (runs_bind_Ok _ H0), runs_bind_Err, H1. }
    apply runs_result in H as (Hr & _ & Ht). auto.
Qed.

Lemma reset_runs (w : World B) d :
  exists acts r w',
    runs (resetContentAndSettings C d) w acts r w' /\ reset_trace d acts r.
Proof.
  unfold resetContentAndSettings.
  destruct (shutdown_runs w d) as ([v|e] & w1 & H1 & _ & _); simpl in H1.
  2:{ do 3 eexists. split; [apply runs_bind_Err, H1 | constructor]. }
  destruct (runs_sim C ResetContentAndSettings [d] w1) as (w2 & H2 & _).
  destruct (fst (applesimutils C ResetContentAndSettings [d] (ext w1))) as [v'|e].
  2:{ do 3 eexists. split.
      - eapply runs_bind_Ok; [exact H1|]. apply runs_bind_Err, H2.
      - apply reset_wipe_failed. }
  destruct (boot_runs w2 d) as ([coldBoot|e] & w3 & H3 & _ & _); simpl in H3.
  - do 3 eexists. split.
    + eapply runs_bind_Ok; [exact H1|].
      eapply runs_bind_Ok; [exact H2|].
      eapply runs_bind_Ok; [exact H3|]. apply runs_ret.
    + apply reset_done.
  - do 3 eexists. split.
    + eapply runs_bind_Ok; [exact H1|].
      eapply runs_bind_Ok; [exact H2|]. apply runs_bind_Err, H3.
    + apply reset_boot_failed.
Qed.

(** C8.  [resetContentAndSettings(deviceId)] calls the backend for the
    shutdown, then, when the shutdown succeeded, for the wipe, then, when the
    wipe succeeded, for the boot, and makes no other call to the backend;
    each call is made in the state the backend was left in by the one
    before.  When the backend answers the three calls the reset completes
    and the device is [Booted]; when the backend fails a call, that call is
    the last one made and its error is thrown by the reset. *)
Theorem resetContentAndSettings_shutdown_wipe_boot (w : World B) d :
  let reset := resetContentAndSettings C d in
  let rs := applesimutils C Shutdown [d] (ext w) in
  let rw := applesimutils C ResetContentAndSettings [d] (snd rs) in
  let rb := applesimutils C Boot [d] (snd rw) in
  match fst rs with
  | Err e =>
      sim_calls (trace (after reset w))
      = sim_calls (trace w) ++ [(Shutdown, [d], Err e)]
      /\ result reset w = Err e
  | Ok v =>
      match fst rw with
      | Err e =>
          sim_calls (trace (after reset w))
          = sim_calls (trace w) ++ [(Shutdown, [d], Ok v);
                                    (ResetContentAndSettings, [d], Err e)]
          /\ result reset w = Err e
      | Ok v' =>
          match fst rb with
          | Err e =>
              sim_calls (trace (after reset w))
              = sim_calls (trace w) ++ [(Shutdown, [d], Ok v);
                                        (ResetContentAndSettings, [d], Ok v');
                                        (Boot, [d], Err e)]
              /\ result reset w = Err e
          | Ok coldBoot =>
              sim_calls (trace (after reset w))
              = sim_calls (trace w) ++ [(Shutdown, [d], Ok v);
                                        (ResetContentAndSettings, [d], Ok v');
                                        (Boot, [d], Ok coldBoot)]
              /\ result reset w = Ok VUndefined
              /\ lifecycle (trace (after reset w)) d = Booted
          end
      end
  end.
Proof.
  unfold resetContentAndSettings, shutdown, boot, result, after, bind, sim, emit, ret,
    record.
  simpl.
  destruct (applesimutils C Shutdown [d] (ext w)) as [[v|e] b1]; simpl.
  2:{ rewrite sim_calls_app. auto. }
  destruct (applesimutils C ResetContentAndSettings [d] b1) as [[v'|e] b2]; simpl.
  2:{ rewrite <- !app_assoc, sim_calls_app. auto. }
  destruct (applesimutils C Boot [d] b2) as [[coldBoot|e] b3]; simpl.
  - rewrite <- !app_assoc. simpl. rewrite sim_calls_app, lifecycle_app. simpl.
    rewrite !jsval_eqb_refl. auto.
  - rewrite <- !app_assoc, sim_calls_app. auto.
Qed.

(** C10.  A reset for which the backend answers the shutdown, the wipe and
    the boot emits exactly two events: [shutdownDevice] between the shutdown
    and the wipe, and [bootDevice], with the answer of the boot, after the
    boot.  A reset for which the backend fails the wipe or the boot has
    emitted [shutdownDevice] and no other event; one for which it fails the
    shutdown has emitted none. *)
Theorem resetContentAndSettings_events (w : World B) d :
  let reset := resetContentAndSettings C d in
  let rs := applesimutils C Shutdown [d] (ext w) in
  let rw := applesimutils C ResetContentAndSettings [d] (snd rs) in
  let rb := applesimutils C Boot [d] (snd rw) in
  let shutdownDevice := ("shutdownDevice", VObj [("deviceId", d)]) in
  match fst rs with
  | Err e =>
      trace (after reset w) = trace w ++ [SimCall Shutdown [d] (Err e)]
      /\ events (trace (after reset w)) = events (trace w)
  | Ok v =>
      match fst rw with
      | Err e =>
          trace (after reset w)
          = trace w ++ [SimCall Shutdown [d] (Ok v);
                        Emit "shutdownDevice" (VObj [("deviceId", d)]);
                        SimCall ResetContentAndSettings [d] (Err e)]
          /\ events (trace (after reset w)) = events (trace w) ++ [shutdownDevice]
      | Ok v' =>
          match fst rb with
          | Err e =>
              trace (after reset w)
              = trace w ++ [SimCall Shutdown [d] (Ok v);
                            Emit "shutdownDevice" (VObj [("deviceId", d)]);
                            SimCall ResetContentAndSettings [d] (Ok v');
                            SimCall Boot [d] (Err e)]
              /\ events (trace (after reset w)) = events (trace w) ++ [shutdownDevice]
          | Ok coldBoot =>
              trace (after reset w)
              = trace w ++ [SimCall Shutdown [d] (Ok v);
                            Emit "shutdownDevice" (VObj [("deviceId", d)]);
                            SimCall ResetContentAndSettings [d] (Ok v');
                            SimCall Boot [d] (Ok coldBoot);
                            Emit "bootDevice"
                                 (VObj [("coldBoot", coldBoot); ("deviceId", d)])]
              /\ events (trace (after reset w))
                 = events (trace w)
                   ++ [shutdownDevice;
                       ("bootDevice", VObj [("coldBoot", coldBoot); ("deviceId", d)])]
          end
      end
  end.
Proof.
  unfold resetContentAndSettings, shutdown, boot, result, after, bind, sim, emit, ret,
    record.
  simpl.
  destruct (applesimutils C Shutdown [d] (ext w)) as [[v|e] b1]; simpl.
  2:{ rewrite events_app. simpl. now rewrite app_nil_r. }
  destruct (applesimutils C ResetContentAndSettings [d] b1) as [[v'|e] b2]; simpl.
  2:{ rewrite <- !app_assoc. simpl. rewrite events_app. auto. }
  destruct (applesimutils C Boot [d] b2) as [[coldBoot|e] b3]; simpl;
    rewrite <- !app_assoc; simpl; rewrite events_app; auto.
Qed.


(** C6.  [cleanup(deviceId, bundleId)], started in any world, frees the
    device in the registry first; that step completes without throwing, and
    the teardown of the superclass is called after it.  Whatever the
    teardown does, the device is not owned when [cleanup] ends. *)
Theorem cleanup_frees_device_first (w : World B) d b :
  let rs := fst (IosDriver_cleanup C d b (ext w)) in
  result (registry_freeDevice d) w = Ok VUndefined
  /\ trace (after (cleanup C d b) w) = trace w ++ [RegFree d; SuperCleanup d b rs]
  /\ result (cleanup C d b) w = completes rs (fun _ => VUndefined)
  /\ ~ In d (owned (after (cleanup C d b) w)).
Proof.
  intros rs.
  destruct (runs_registry_freeDevice d w) as (w1 & H1 & Hext & Hown).
  destruct (runs_super_cleanup C d b w1) as (w2 & H2 & Hown2).
  simpl in H2. rewrite Hext in H2. fold rs in H2.
  assert (H : exists acts, runs (cleanup C d b) w acts (completes rs (fun _ => VUndefined)) w2
                           /\ acts = [RegFree d; SuperCleanup d b rs]).
  { unfold cleanup. destruct rs as [v|e]; simpl.
    - eexists. split.
      + eapply runs_bind_Ok; [exact H1|].
        eapply runs_bind_Ok; [exact H2|]. apply runs_ret.
      + reflexivity.
    - eexists. split.
      + eapply runs_bind_Ok; [exact H1|]. apply runs_bind_Err, H2.
      + reflexivity. }
  destruct H as (acts & H & ->).
  apply runs_result in H as (Hr & Ha & Ht).
  repeat split; [exact Ht | exact Hr |].
  rewrite Ha, Hown2, Hown. intros Hin.
  apply filter_In in Hin as [_ Hneq].
  now rewrite jsval_eqb_refl in Hneq.
Qed.

(** C7, as the code has it.  [terminate(deviceId, bundleId)] makes no check
    of the state of the device: in every world its one interaction is the
    call of the terminate primitive of the backend with [deviceId] and
    [bundleId].  When the backend succeeds the call completes, and a device
    that was [Running] is [Booted]; the state machine has no other
    transition for a terminate, so a device in another state stays in it.
    When the backend fails, its error is thrown to the caller and the state
    is as before. *)
Theorem terminate_always_delegates_to_backend (w : World B) d b :
  match fst (applesimutils C Terminate [d; b] (ext w)) with
  | Ok v =>
      trace (after (terminate C d b) w) = trace w ++ [SimCall Terminate [d; b] (Ok v)]
      /\ result (terminate C d b) w = Ok VUndefined
      /\ lifecycle (trace (after (terminate C d b) w)) d
         = match lifecycle (trace w) d with
           | Running => Booted
           | s => s
           end
  | Err e =>
      trace (after (terminate C d b) w) = trace w ++ [SimCall Terminate [d; b] (Err e)]
      /\ result (terminate C d b) w = Err e
      /\ lifecycle (trace (after (terminate C d b) w)) d = lifecycle (trace w) d
  end.
Proof.
  destruct (runs_sim C Terminate [d; b] w) as (w1 & H1 & _).
  destruct (fst (applesimutils C Terminate [d; b] (ext w))) as [v|e].
  - assert (H : runs (terminate C d b) w ([SimCall Terminate [d; b] (Ok v)] ++ [])
                     (Ok VUndefined) w1)
      by (apply (runs_bind_Ok _ H1), runs_ret).
    apply runs_result in H as (Hr & _ & Ht).
    repeat split; [exact Ht | exact Hr |].
    rewrite Ht, lifecycle_app. simpl. rewrite jsval_eqb_refl.
    now destruct (lifecycle (trace w) d).
  - assert (H : runs (terminate C d b) w [SimCall Terminate [d; b] (Err e)] (Err e) w1)
      by (apply runs_bind_Err, H1).
    apply runs_result in H as (Hr & _ & Ht).
    repeat split; [exact Ht | exact Hr |].
    now rewrite Ht, lifecycle_app.
Qed.

(** C5, what the code does.  The capability [createDeviceWithProperties]
    the constructor hands to the registry is the second declaration of
    [_createDeviceWithProperties].  Its one call to the backend is the
    enumeration [getDevicesWithProperties(properties)]; for an array it
    returns the array of the remapped elements, for anything else it throws
    a [TypeError].  It never returns a single descriptor object. *)
Theorem createDeviceWithProperties_enumerates_and_returns_array (w : World B) q :
  let create := createDeviceWithProperties (constructor_deviceRegistry C) in
  create = _createDeviceWithProperties_2 C
  /\ match fst (applesimutils C GetDevicesWithProperties [q] (ext w)) with
     | Ok devices =>
         trace (after (create q) w)
         = trace w ++ [SimCall GetDevicesWithProperties [q] (Ok devices)]
         /\ result (create q) w
            = match devices with
              | VArr l => Ok (VArr (map remapSimUtilsObject l))
              | _ => Err TypeError
              end
     | Err e =>
         trace (after (create q) w)
         = trace w ++ [SimCall GetDevicesWithProperties [q] (Err e)]
         /\ result (create q) w = Err e
     end.
Proof.
  intros create. split; [reflexivity|].
  change create with (_createDeviceWithProperties_2 C).
  destruct (runs_sim C GetDevicesWithProperties [q] w) as (w1 & H1 & _).
  destruct (fst (applesimutils C GetDevicesWithProperties [q] (ext w))) as [devices|e].
  - assert (H : runs (_createDeviceWithProperties_2 C q) w
                     ([SimCall GetDevicesWithProperties [q] (Ok devices)] ++ [])
                     (match devices with
                      | VArr l => Ok (VArr (map remapSimUtilsObject l))
                      | _ => Err TypeError
                      end) w1).
    { apply (runs_bind_Ok _ H1).
      destruct devices; simpl; (apply runs_ret || apply runs_throw). }
    apply runs_result in H as (Hr & _ & Ht). auto.
  - assert (H : runs (_createDeviceWithProperties_2 C q) w
                     [SimCall GetDevicesWithProperties [q] (Err e)] (Err e) w1)
      by (apply runs_bind_Err, H1).
    apply runs_result in H as (Hr & _ & Ht). auto.
Qed.

End DriverProperties.

(** ** Normalizing a device descriptor *)

Section Remap.

Import JsObject.

Lemma get_None_iff (o : Obj) k : get o k = None <-> ~ In k (keys o).
Proof.
  induction o as [|[k' v] o IH]; simpl; [tauto|].
  destruct (String.eqb_spec k' k) as [->|Hne].
  - split; [discriminate | tauto].
  - rewrite IH. tauto.
Qed.

Lemma set_fresh (o : Obj) k v : ~ In k (keys o) -> set o k v = o ++ [(k, v)].
Proof.
  induction o as [|[k' v'] o IH]; simpl; [reflexivity|].
  intros Hnot. destruct (String.eqb_spec k' k) as [->|Hne]; [tauto|].
  rewrite IH; tauto.
Qed.

Lemma renameUDID_inj v1 v2 k1 k2 :
  k1 <> "id" -> k2 <> "id" -> renameUDID v1 k1 = renameUDID v2 k2 -> k1 = k2.
Proof.
  unfold renameUDID.
  destruct (String.eqb_spec k1 "udid"), (String.eqb_spec k2 "udid"); congruence.
Qed.

Lemma mapKeys_fold_fresh (o acc : Obj) :
  NoDup (keys o) ->
  ~ In "id" (keys o) ->
  (forall k, In k (keys o) -> ~ In (renameUDID VUndefined k) (keys acc)) ->
  fold_left (fun result kv => set result (renameUDID (snd kv) (fst kv)) (snd kv)) o acc
  = acc ++ map renamed o.
Proof.
  revert acc. induction o as [|[k v] o IH]; intros acc Hnd Hid Hacc; simpl.
  - now rewrite app_nil_r.
  - simpl in Hnd, Hid. inversion Hnd as [|? ? Hk Hnd']; subst.
    rewrite set_fresh by (apply (Hacc k); simpl; auto).
    rewrite IH; [now rewrite <- app_assoc | assumption | tauto |].
    intros k' Hk'. unfold keys. rewrite map_app, in_app_iff. simpl.
    intros [Hin | [Heq | []]].
    + apply (Hacc k'); simpl; auto.
    + apply renameUDID_inj in Heq; [congruence | tauto |].
      intros ->. tauto.
Qed.

Lemma get_map_renamed (o : Obj) k :
  ~ In "id" (keys o) ->
  get (map renamed o) k
  = if String.eqb k "id" then get o "udid"
    else if String.eqb k "udid" then None
    else get o k.
Proof.
  intros Hid. induction o as [|[k' v] o IH]; simpl.
  - now destruct (String.eqb k "id"), (String.eqb k "udid").
  - simpl in Hid. rewrite IH by tauto. unfold renameUDID.
    destruct (String.eqb_spec k' "udid") as [->|Hu].
    + destruct (String.eqb_spec "id" k) as [<-|Hk]; [reflexivity|].
      destruct (String.eqb_spec k "id") as [->|_]; [congruence|].
      destruct (String.eqb_spec "udid" k) as [<-|Hk']; [reflexivity|].
      now destruct (String.eqb_spec k "udid") as [->|_]; [congruence|].
    + destruct (String.eqb_spec k' k) as [->|Hk].
      * destruct (String.eqb_spec k "id") as [->|_]; [tauto|].
        now destruct (String.eqb_spec k "udid") as [->|_]; [congruence|].
      * destruct (String.eqb_spec k "id") as [->|_].
        -- now destruct (String.eqb_spec k' "udid").
        -- reflexivity.
Qed.

(** C9, as the code has it.  For a descriptor that has no property [id] of
    its own, [remapSimUtilsObject] gives the same properties in the same
    order with the same values, the key [udid] replaced by [id]: the value
    of [udid] is found under [id], no property [udid] is left, and every
    other key keeps its value. *)
Theorem remapSimUtilsObject_renames_udid (o : Obj) :
  wf_obj o ->
  get o "id" = None ->
  remapSimUtilsObject (VObj o)
  = VObj (map (fun kv => (if String.eqb (fst kv) "udid" then "id" else fst kv, snd kv)) o)
  /\ forall o', remapSimUtilsObject (VObj o) = VObj o' ->
       get o' "id" = get o "udid"
       /\ get o' "udid" = None
       /\ forall k, k <> "id" -> k <> "udid" -> get o' k = get o k.
Proof.
  intros Hwf Hid. apply get_None_iff in Hid.
  assert (Heq : remapSimUtilsObject (VObj o) = VObj (map renamed o)).
  { unfold remapSimUtilsObject, Lodash.mapKeys. simpl.
    rewrite mapKeys_fold_fresh; auto. }
  split; [exact Heq|].
  intros o' Ho'. rewrite Heq in Ho'. injection Ho' as <-.
  repeat split.
  - now rewrite get_map_renamed.
  - now rewrite get_map_renamed.
  - intros k Hk Hu. rewrite get_map_renamed by assumption.
    destruct (String.eqb_spec k "id"); [congruence|].
    now destruct (String.eqb_spec k "udid"); [congruence|].
Qed.

End Remap.

(** ** Concrete runs *)

Lemma remapSimUtilsObject_renames_udid_witness :
  JsObject.wf_obj sim_descriptor
  /\ JsObject.get sim_descriptor "id" = None
  /\ remapSimUtilsObject (VObj sim_descriptor)
     = VObj [("id", VStr "ABCD-1"); ("name", VStr "iPhone-Test"); ("os", VStr "17.0")].
Proof.
  assert (Hwf : JsObject.wf_obj sim_descriptor).
  { unfold JsObject.wf_obj, sim_descriptor. simpl.
    repeat constructor; simpl; intuition discriminate. }
  split; [exact Hwf|]. split; [reflexivity|].
  exact (proj1 (remapSimUtilsObject_renames_udid Hwf eq_refl)).
Defined.

(** C9, a descriptor the wording fails on: with a property [id] before the
    property [udid], both are assigned to the key [id] and the value of the
    later one stays, so the value the descriptor had under [id] is lost. *)
Lemma remapSimUtilsObject_drops_own_id :
  remapSimUtilsObject (VObj [("id", VStr "SIM-1"); ("udid", VStr "ABCD-1")])
  = VObj [("id", VStr "ABCD-1")]
  /\ ~ remap_keeps_other_properties.
Proof.
  split; [reflexivity|].
  intros H.
  specialize (H [("id", VStr "SIM-1"); ("udid", VStr "ABCD-1")] "id" (VStr "SIM-1")).
  assert (Hwf : JsObject.wf_obj [("id", VStr "SIM-1"); ("udid", VStr "ABCD-1")]).
  { unfold JsObject.wf_obj. simpl. repeat constructor; simpl; intuition discriminate. }
  specialize (H Hwf ltac:(discriminate) eq_refl).
  discriminate H.
Qed.

(** C7, a device the wording fails on: the device is booted and no app was
    launched on it, and [terminate] calls the backend and completes. *)
Lemma terminate_delegates_when_not_Running :
  lifecycle (trace booted) (VStr "ABCD-1") = Booted
  /\ result (terminate reliable (VStr "ABCD-1") (VStr "com.example.app")) booted
     = Ok VUndefined
  /\ sim_calls (trace (after (terminate reliable (VStr "ABCD-1") (VStr "com.example.app"))
                             booted))
     = sim_calls (trace booted)
       ++ [(Terminate, [VStr "ABCD-1"; VStr "com.example.app"], Ok VUndefined)]
  /\ ~ terminate_rejects_unless_Running.
Proof.
  repeat split.
  intros H.
  destruct (H unit reliable booted (VStr "ABCD-1") (VStr "com.example.app"))
    as [[e He] _]; [discriminate|].
  discriminate He.
Qed.

(** C5 on a backend without devices: the capability enumerates, creates
    nothing and returns the empty array. *)
Example createDeviceWithProperties_no_match :
  let create := createDeviceWithProperties (constructor_deviceRegistry reliable) in
  let query := VObj [("name", VStr "iPhone-Test"); ("os", VStr "17.0")] in
  result (create query) fresh = Ok (VArr [])
  /\ trace (after (create query) fresh)
     = [SimCall GetDevicesWithProperties [query] (Ok (VArr []))].
Proof. split; reflexivity. Qed.

(** The scenario of the spec: acquire, install, launch, clean up. *)
Example end_to_end_scenario :
  let d := VStr "ABCD-1" in
  let app := VStr "com.example.app" in
  let w1 := after (installApp reliable d (VStr "/path/App.app")) booted in
  let w2 := after (launchApp reliable d app (VArr [])) w1 in
  let w3 := after (cleanup reliable d app) w2 in
  result (acquireFreeDevice reliable (VStr "iPhone-Test")) fresh = Ok d
  /\ owned booted = [d]
  /\ result (launchApp reliable d app (VArr [])) w1 = Ok (VNum 1234)
  /\ events (trace w3)
     = [("bootDevice", bootDevice_payload (VBool true) d);
        ("beforeLaunchApp", beforeLaunchApp_payload app d (VArr []));
        ("launchApp", launchApp_payload app d (VArr []) (VNum 1234))]
  /\ lifecycle (trace w2) d = Running
  /\ owned w3 = [].
Proof. repeat split. Qed.

(** ** Sessions *)

Section SessionProperties.

Variable B : Type.
Variable C : Collaborators B.

Ltac ask_backend :=
  repeat match goal with
         | |- context [applesimutils C ?m ?args ?b] =>
             let r := fresh "r" in
             let b' := fresh "b" in
             destruct (applesimutils C m args b) as [[r|r] b']; simpl
         | |- context [acquireDevice C ?n ?o ?b] =>
             let r := fresh "r" in
             let o' := fresh "o" in
             let b' := fresh "b" in
             destruct (acquireDevice C n o b) as [[[r|r] o'] b']; simpl
         | |- context [IosDriver_cleanup C ?d ?x ?b] =>
             let r := fresh "r" in
             let b' := fresh "b" in
             destruct (IosDriver_cleanup C d x b) as [[r|r] b']; simpl
         | |- context [truthy ?v] =>
             destruct (truthy v); simpl
         end.

Ltac run_call :=
  unfold invoke, after, result, constructor_deviceRegistry, _createDeviceWithProperties,
    _getDevicesWithProperties, this_method, _createDeviceWithProperties_2,
    _getDevicesWithProperties_1, acquireFreeDevice, cleanup, boot, installApp,
    uninstallApp, launchApp, terminate, sendToHome, shutdown, setLocation,
    setPermissions, resetContentAndSettings, getLogsPaths, array_map,
    bind, sim, emit, registry_acquireDevice, registry_freeDevice, super_cleanup,
    log_error, ret, throw, record;
  simpl.

Lemma invoke_trace (c : Call) (w : World B) :
  exists acts, trace (after (invoke C c) w) = trace w ++ acts /\ call_trace c acts.
Proof.
  destruct c.
  - (* acquireFreeDevice *)
    run_call.
    destruct (acquireDevice C name (owned w) (ext w)) as [[[id|e] o] b]; simpl.
    + destruct (truthy id) eqn:Hid; simpl.
      * destruct (applesimutils C Boot [id] b) as [[cb|e] b'] eqn:Hb; simpl.
        -- exists (acquireFreeDevice_acts name (Ok id) (Ok cb)).
           split; [|constructor].
           unfold acquireFreeDevice_acts. simpl. rewrite Hid.
           now rewrite <- !app_assoc.
        -- exists (acquireFreeDevice_acts name (Ok id) (Err e)).
           split; [|constructor].
           unfold acquireFreeDevice_acts. simpl. rewrite Hid.
           now rewrite <- !app_assoc.
      * exists (acquireFreeDevice_acts name (Ok id) (Ok VUndefined)).
        split; [|constructor].
        unfold acquireFreeDevice_acts. simpl. rewrite Hid.
        now rewrite <- !app_assoc.
    + exists (acquireFreeDevice_acts name (Err e) (Ok VUndefined)).
      split; [reflexivity | constructor].
  - (* cleanup *)
    run_call.
    destruct (IosDriver_cleanup C deviceId bundleId (ext w)) as [[v|e] b]; simpl;
      eexists; (split; [|apply trace_cleanup]); now rewrite <- !app_assoc.
  - (* boot *)
    run_call.
    destruct (applesimutils C Boot [deviceId] (ext w)) as [[cb|e] b]; simpl.
    + exists (boot_acts deviceId (Ok cb)). split; [|constructor].
      now rewrite <- !app_assoc.
    + exists (boot_acts deviceId (Err e)). split; [reflexivity | constructor].
  - run_call. ask_backend;
      (eexists; split; [reflexivity | now apply trace_delegation]).
  - run_call. ask_backend;
      (eexists; split; [reflexivity | now apply trace_delegation]).
  - (* launchApp *)
    run_call.
    destruct (applesimutils C Launch [deviceId; bundleId; launchArgs] (ext w))
      as [[pid|e] b]; simpl.
    + exists (launchApp_acts deviceId bundleId launchArgs (Ok pid)).
      split; [|constructor]. now rewrite <- !app_assoc.
    + exists (launchApp_acts deviceId bundleId launchArgs (Err e)).
      split; [|constructor]. now rewrite <- !app_assoc.
  - run_call. ask_backend;
      (eexists; split; [reflexivity | now apply trace_delegation]).
  - run_call. ask_backend;
      (eexists; split; [reflexivity | now apply trace_delegation]).
  - (* shutdown *)
    run_call.
    destruct (applesimutils C Shutdown [deviceId] (ext w)) as [[v|e] b]; simpl.
    + exists (shutdown_acts deviceId (Ok v)). split; [|constructor].
      now rewrite <- !app_assoc.
    + exists (shutdown_acts deviceId (Err e)). split; [reflexivity | constructor].
  - run_call. ask_backend;
      (eexists; split; [reflexivity | now apply trace_delegation]).
  - run_call. ask_backend;
      (eexists; split; [reflexivity | now apply trace_delegation]).
  - (* resetContentAndSettings *)
    destruct (reset_runs C w deviceId) as (acts & r & w' & H & Hcase).
    apply runs_result in H as (_ & _ & Ht).
    exists acts. split; [exact Ht|].
    destruct Hcase.
    + apply (trace_reset deviceId (Err e) (Ok VUndefined) (Ok VUndefined)).
    + apply (trace_reset deviceId (Ok v) (Err e) (Ok VUndefined)).
    + apply (trace_reset deviceId (Ok v) (Ok v') (Err e)).
    + apply (trace_reset deviceId (Ok v) (Ok v') (Ok coldBoot)).
  - run_call. ask_backend;
      (eexists; split; [reflexivity | now apply trace_delegation]).
  - change (invoke C (CallCreateDeviceWithProperties properties))
      with (_createDeviceWithProperties_2 C properties).
    run_call.
    destruct (applesimutils C GetDevicesWithProperties [properties] (ext w))
      as [[v|e] b]; simpl;
      [destruct v; simpl|];
      (eexists; split; [reflexivity | now apply trace_delegation]).
  - change (invoke C (CallGetDevicesWithProperties properties))
      with (_getDevicesWithProperties_1 C properties).
    run_call.
    destruct (applesimutils C GetDevicesWithProperties [properties] (ext w))
      as [[v|e] b]; simpl;
      [destruct v; simpl|];
      (eexists; split; [reflexivity | now apply trace_delegation]).
Qed.

Lemma ordered_from_app (t acts : list Action) p2 p1 :
  ordered_from p2 p1 t ->
  (forall q2 q1, ordered_from q2 q1 acts) ->
  ordered_from p2 p1 (t ++ acts).
Proof.
  intros Ht Hacts. revert p2 p1 Ht.
  induction t as [|a t IH]; simpl; intros p2 p1 Ht; [apply Hacts|].
  destruct Ht as [Ha Ht]. split; [exact Ha | apply IH, Ht].
Qed.

Lemma call_trace_ordered c acts :
  call_trace c acts -> forall q2 q1, ordered_from q2 q1 acts.
Proof.
  assert (Hboot : forall d rb q2 q1, ordered_from q2 q1 (boot_acts d rb)).
  { intros d [cb|e] q2 q1; simpl; repeat split.
    right; left. exists d, cb. auto. }
  assert (Hshut : forall d rb q2 q1, ordered_from q2 q1 (shutdown_acts d rb)).
  { intros d [v|e] q2 q1; simpl; repeat split.
    right; right; left. exists d, v. auto. }
  destruct 1; intros q2 q1.
  - destruct ra as [id|e]; simpl; [|auto].
    split; [exact I|]. destruct (truthy id); [apply Hboot | simpl; auto].
  - simpl. auto.
  - apply Hboot.
  - assert (Hb : justified q2 q1
                   (Emit "beforeLaunchApp" (beforeLaunchApp_payload b d args))).
    { left. exists b, d, args. auto. }
    destruct rb as [pid|e]; simpl; repeat split; try exact Hb.
    right; right; right. exists b, d, args, pid. auto.
  - apply Hshut.
  - unfold reset_acts. apply ordered_from_app; [apply Hshut|].
    intros p2 p1. destruct rs as [v|e]; simpl; [|exact I].
    split; [exact I|]. destruct rw as [v'|e]; simpl; [|exact I].
    apply (Hboot d rb p1 (Some (SimCall ResetContentAndSettings [d] (Ok v')))).
  - simpl. auto.
Qed.

Lemma followed_app a rest more : followed a rest -> followed a (rest ++ more).
Proof.
  destruct a as [m args r| name payload | | | |]; simpl; auto.
  - destruct m; auto;
      destruct args as [|d [|b [|x [|? ?]]]]; auto; destruct r; auto;
      intros [rest' ->]; eexists; reflexivity.
  - intros H Hn. destruct (H Hn) as (b & d & args & r & rest' & Hp & ->).
    exists b, d, args, r, (rest' ++ more). auto.
Qed.

Lemma announced_app t acts : announced t -> announced acts -> announced (t ++ acts).
Proof.
  induction t as [|a t IH]; simpl; [auto|].
  intros [Ha Ht] Hacts. split; [apply followed_app, Ha | apply IH; assumption].
Qed.

Lemma call_trace_announced c acts : call_trace c acts -> announced acts.
Proof.
  assert (Hboot : forall d rb, announced (boot_acts d rb)).
  { intros d [cb|e]; simpl; repeat split; eauto; discriminate. }
  assert (Hshut : forall d rb, announced (shutdown_acts d rb)).
  { intros d [v|e]; simpl; repeat split; eauto; discriminate. }
  destruct 1.
  - destruct ra as [id|e]; simpl; [|auto].
    split; [exact I|]. destruct (truthy id); [apply Hboot | simpl; auto].
  - simpl. auto.
  - apply Hboot.
  - destruct rb as [pid|e]; simpl; repeat split; eauto 10; discriminate.
  - apply Hshut.
  - unfold reset_acts. apply announced_app; [apply Hshut|].
    destruct rs as [v|e]; simpl; [|exact I].
    split; [exact I|]. destruct rw as [v'|e]; simpl; [|exact I].
    apply Hboot.
  - simpl. split; [|exact I].
    destruct c; try discriminate; simpl in H; injection H as <- <-; exact I.
Qed.

Lemma session_extends (P : list Action -> Prop) :
  P [] ->
  (forall a1 a2, P a1 -> P a2 -> P (a1 ++ a2)) ->
  (forall c acts, call_trace c acts -> P acts) ->
  forall calls w, extends P w (session C calls w).
Proof.
  intros Hnil Happ Hcall. induction calls as [|c calls IH]; intros w; simpl.
  - exists []. now rewrite app_nil_r.
  - destruct (invoke_trace c w) as (a1 & Ht1 & Hc).
    destruct (IH (after (invoke C c) w)) as (a2 & Ht2 & HP).
    exists (a1 ++ a2). split.
    + now rewrite Ht2, Ht1, app_assoc.
    + apply Happ; [apply (Hcall c), Hc | exact HP].
Qed.

Lemma session_events_ordered (calls : list Call) (b : B) (o : list JSVal) :
  ordered (trace (session C calls (start b o))).
Proof.
  destruct (session_extends (fun acts => forall q2 q1, ordered_from q2 q1 acts))
    with (calls := calls) (w := start b o) as (acts & -> & H).
  - simpl. auto.
  - intros a1 a2 H1 H2 q2 q1. apply ordered_from_app; auto.
  - intros c acts Hc. apply call_trace_ordered with (c := c), Hc.
  - apply H.
Qed.

Lemma ordered_from_context (hist pre post : list Action) (a : Action) :
  ordered_from (nth_error hist 1) (hd_error hist) (pre ++ a :: post) ->
  justified (nth_error (rev pre ++ hist) 1) (hd_error (rev pre ++ hist)) a.
Proof.
  revert hist. induction pre as [|x pre IH]; intros hist; simpl.
  - intros [Ha _]. exact Ha.
  - intros [_ H]. rewrite <- app_assoc. simpl.
    apply IH. exact H.
Qed.

Lemma rev_cons_inv (A : Type) (l r : list A) (x : A) :
  rev l = x :: r -> l = rev r ++ [x].
Proof.
  intros H. rewrite <- (rev_involutive l), H. reflexivity.
Qed.

(** X1.  In the interactions of any session of a driver, from its start, the
    only events are [beforeLaunchApp], [bootDevice], [shutdownDevice] and
    [launchApp]; a [bootDevice] comes right after the successful boot of the
    backend, for the same device and with the answer of the backend; a
    [shutdownDevice] right after the successful shutdown; a [launchApp]
    right after the successful launch, which comes right after the
    [beforeLaunchApp] of the same arguments. *)
Theorem session_event_follows_backend_success
  (calls : list Call) (b : B) (o : list JSVal) pre name payload post :
  trace (session C calls (start b o)) = pre ++ Emit name payload :: post ->
  event_context pre name payload.
Proof.
  intros Ht.
  pose proof (session_events_ordered calls b o) as Ho.
  rewrite Ht in Ho. apply (ordered_from_context []) in Ho.
  rewrite app_nil_r in Ho. simpl in Ho.
  destruct Ho as [H | [H | [H | H]]].
  - left. exact H.
  - right; left. destruct H as (d & cb & Hn & Hp & Hl).
    destruct (rev pre) as [|x r] eqn:Hr; [discriminate|].
    injection Hl as ->. apply rev_cons_inv in Hr.
    exists d, cb, (rev r). auto.
  - right; right; left. destruct H as (d & v & Hn & Hp & Hl).
    destruct (rev pre) as [|x r] eqn:Hr; [discriminate|].
    injection Hl as ->. apply rev_cons_inv in Hr.
    exists d, v, (rev r). auto.
  - right; right; right. destruct H as (b' & d & args & pid & Hn & Hp & Hl & Hbl).
    destruct (rev pre) as [|x [|y r]] eqn:Hr; try discriminate.
    injection Hl as ->. injection Hbl as ->. apply rev_cons_inv in Hr.
    exists b', d, args, pid, (rev r). repeat split; auto.
    rewrite Hr. simpl. now rewrite <- app_assoc.
Qed.

(** X2.  In the interactions of any session of a driver, each successful boot,
    shutdown and launch of the backend is followed at once by its event, and
    each [beforeLaunchApp] by the launch of the backend it announces. *)
Theorem session_backend_success_announced (calls : list Call) (b : B) (o : list JSVal) :
  announced (trace (session C calls (start b o))).
Proof.
  destruct (session_extends announced) with (calls := calls) (w := start b o)
    as (acts & -> & H).
  - exact I.
  - apply announced_app.
  - apply call_trace_announced.
  - exact H.
Qed.

Lemma call_trace_quiet c acts :
  call_trace c acts -> emits_events c = false -> events acts = [].
Proof.
  destruct 1; simpl; try discriminate; reflexivity.
Qed.

(** X3.  A session of calls other than [acquireFreeDevice], [boot], [launchApp],
    [shutdown] and [resetContentAndSettings] emits no event. *)
Theorem session_without_lifecycle_calls_emits_nothing (calls : list Call) (w : World B) :
  Forall (fun c => emits_events c = false) calls ->
  events (trace (session C calls w)) = events (trace w).
Proof.
  intros Hq. revert w. induction Hq as [|c calls Hc _ IH]; intros w; simpl.
  - reflexivity.
  - rewrite IH. destruct (invoke_trace c w) as (acts & -> & Hs).
    rewrite events_app, (call_trace_quiet Hs Hc). apply app_nil_r.
Qed.

Lemma invoke_owned (c : Call) (w : World B) :
  uses_registry c = false -> owned (after (invoke C c) w) = owned w.
Proof.
  destruct c; simpl uses_registry; try discriminate; intros _;
    try (change (invoke C (CallCreateDeviceWithProperties properties))
           with (_createDeviceWithProperties_2 C properties));
    try (change (invoke C (CallGetDevicesWithProperties properties))
           with (_getDevicesWithProperties_1 C properties));
    run_call; run_call; ask_backend; try reflexivity;
    match goal with |- context [match ?v with VArr _ => _ | _ => _ end] =>
      destruct v; reflexivity end.
Qed.

Lemma call_trace_no_registry c acts :
  call_trace c acts -> uses_registry c = false ->
  Forall (fun a => is_registry_call a = false) acts.
Proof.
  destruct 1; simpl; try discriminate; intros _.
  - destruct rb; repeat constructor.
  - destruct rb; repeat constructor.
  - destruct rb; repeat constructor.
  - destruct rs as [v|e]; [|repeat constructor].
    destruct rw as [v'|e]; [|repeat constructor].
    destruct rb; repeat constructor.
  - repeat constructor.
Qed.

(** X4.  Only [acquireFreeDevice] and [cleanup] go to the registry: a session of
    other calls has no interaction with it and leaves what it records as
    owned as it was. *)
Theorem session_without_registry_calls_keeps_ownership (calls : list Call) (w : World B) :
  Forall (fun c => uses_registry c = false) calls ->
  owned (session C calls w) = owned w
  /\ exists acts,
       trace (session C calls w) = trace w ++ acts
       /\ Forall (fun a => is_registry_call a = false) acts.
Proof.
  intros Hq. revert w. induction Hq as [|c calls Hc _ IH]; intros w; simpl.
  - split; [reflexivity|]. exists []. now rewrite app_nil_r.
  - destruct (IH (after (invoke C c) w)) as (Ho & a2 & Ht2 & H2).
    destruct (invoke_trace c w) as (a1 & Ht1 & Hs).
    split; [now rewrite Ho, invoke_owned|].
    exists (a1 ++ a2). split; [now rewrite Ht2, Ht1, app_assoc|].
    apply Forall_app. split; [apply (call_trace_no_registry Hs Hc) | exact H2].
Qed.

(** X5.  [acquireFreeDevice] never gives a device back: when it ends, with the id,
    with none or with the error of a failed boot, the registry records as
    owned what [acquireDevice] left, and the registry was not called
    again. *)
Theorem acquireFreeDevice_never_frees (w : World B) name :
  owned (after (acquireFreeDevice C name) w)
  = snd (fst (acquireDevice C name (owned w) (ext w)))
  /\ exists acts,
       trace (after (acquireFreeDevice C name) w) = trace w ++ acts
       /\ forall d, ~ In (RegFree d) acts.
Proof.
  split.
  - run_call. ask_backend; reflexivity.
  - destruct (invoke_trace (CallAcquireFreeDevice name) w) as (acts & Ht & Hc).
    exists acts. split; [exact Ht|]. intros d Hin.
    inversion Hc; subst.
    + unfold acquireFreeDevice_acts in Hin.
      destruct Hin as [Hin|Hin]; [discriminate|].
      destruct ra as [id|e]; simpl in Hin; [|exact Hin].
      destruct (truthy id); simpl in Hin.
      * destruct Hin as [Hin|Hin]; [discriminate|].
        destruct rb; simpl in Hin; intuition discriminate.
      * intuition discriminate.
    + match goal with H : delegation _ = Some _ |- _ => discriminate H end.
Qed.

End SessionProperties.

(** ** More on [remapSimUtilsObject] *)

Section RemapProperties.

Import JsObject.

Lemma in_keys_set (o : Obj) k v x :
  In x (keys (set o k v)) <-> In x (keys o) \/ x = k.
Proof.
  induction o as [|[k' v'] o IH]; simpl.
  - intuition.
  - destruct (String.eqb_spec k' k) as [->|Hne]; simpl.
    + intuition.
    + rewrite IH. intuition.
Qed.

Lemma wf_set (o : Obj) k v : wf_obj o -> wf_obj (set o k v).
Proof.
  unfold wf_obj. induction o as [|[k' v'] o IH]; simpl; intros Hnd.
  - repeat constructor. intros [].
  - inversion Hnd as [|? ? Hk Hnd']; subst.
    destruct (String.eqb_spec k' k) as [->|Hne]; simpl.
    + constructor; assumption.
    + constructor; [|apply IH, Hnd'].
      rewrite in_keys_set. intros [Hin | ->]; tauto.
Qed.

Lemma get_set (o : Obj) k v k' :
  get (set o k v) k' = if String.eqb k k' then Some v else get o k'.
Proof.
  induction o as [|[k0 v0] o IH]; simpl.
  - reflexivity.
  - destruct (String.eqb_spec k0 k) as [->|Hne]; simpl.
    + now destruct (String.eqb k k').
    + rewrite IH. destruct (String.eqb_spec k0 k') as [->|Hne'];
        [|reflexivity].
      now destruct (String.eqb_spec k k') as [->|_]; [congruence|].
Qed.

Lemma in_set (o : Obj) k v kv :
  In kv (set o k v) -> In kv o \/ kv = (k, v).
Proof.
  induction o as [|[k' v'] o IH]; simpl.
  - intuition.
  - destruct (String.eqb_spec k' k) as [->|Hne]; simpl; intuition.
Qed.

Lemma length_set (o : Obj) k v : List.length (set o k v) <= S (List.length o).
Proof.
  induction o as [|[k' v'] o IH]; simpl; [auto|].
  destruct (String.eqb k' k); simpl; auto using le_n_S.
Qed.

Lemma assign_renamed_wf (props acc : Obj) : wf_obj acc -> wf_obj (assign_renamed acc props).
Proof.
  revert acc. induction props as [|[k v] props IH]; simpl; intros acc Hwf; [exact Hwf|].
  apply IH, wf_set, Hwf.
Qed.

Lemma renameUDID_not_udid v k : renameUDID v k <> "udid".
Proof.
  unfold renameUDID. destruct (String.eqb_spec k "udid"); [discriminate | assumption].
Qed.

Lemma assign_renamed_no_udid (props acc : Obj) :
  get acc "udid" = None -> get (assign_renamed acc props) "udid" = None.
Proof.
  revert acc. induction props as [|[k v] props IH]; simpl; intros acc Hacc; [exact Hacc|].
  apply IH. rewrite get_set.
  destruct (String.eqb_spec (renameUDID v k) "udid") as [Heq|_]; [|exact Hacc].
  now apply renameUDID_not_udid in Heq.
Qed.

Lemma assign_renamed_origin (props acc : Obj) kv :
  In kv (assign_renamed acc props) ->
  In kv acc \/ exists k, In (k, snd kv) props /\ renameUDID (snd kv) k = fst kv.
Proof.
  revert acc. induction props as [|[k v] props IH]; simpl; intros acc Hin; [auto|].
  apply IH in Hin as [Hin | (k' & Hin & Hk)].
  - apply in_set in Hin as [Hin | ->]; [auto|].
    right. exists k. simpl. auto.
  - right. exists k'. auto.
Qed.

Lemma assign_renamed_length (props acc : Obj) :
  List.length (assign_renamed acc props) <= List.length acc + List.length props.
Proof.
  revert acc. induction props as [|[k v] props IH]; intros acc.
  - simpl. lia.
  - change (assign_renamed acc ((k, v) :: props))
      with (assign_renamed (set acc (renameUDID v k) v) props).
    specialize (IH (set acc (renameUDID v k) v)).
    pose proof (length_set acc (renameUDID v k) v) as H.
    simpl List.length. lia.
Qed.

Lemma assign_renamed_fresh (props acc : Obj) :
  wf_obj props ->
  ~ In "udid" (keys props) ->
  (forall k, In k (keys props) -> ~ In k (keys acc)) ->
  assign_renamed acc props = acc ++ props.
Proof.
  unfold wf_obj. revert acc.
  induction props as [|[k v] props IH]; simpl; intros acc Hnd Hu Hacc.
  - now rewrite app_nil_r.
  - inversion Hnd as [|? ? Hk Hnd']; subst.
    assert (Hr : renameUDID v k = k).
    { unfold renameUDID. destruct (String.eqb_spec k "udid"); [tauto | reflexivity]. }
    rewrite Hr, set_fresh by auto.
    rewrite IH; [now rewrite <- app_assoc | assumption | tauto |].
    intros k' Hk'. unfold keys. rewrite map_app, in_app_iff. simpl.
    intros [Hin | [<- | []]]; [apply (Hacc k'); auto | tauto].
Qed.

Lemma get_assign_renamed_other (props acc : Obj) k :
  k <> "id" -> k <> "udid" -> wf_obj props -> get acc k = None \/ ~ In k (keys props) ->
  get (assign_renamed acc props) k
  = match get props k with Some v => Some v | None => get acc k end.
Proof.
  unfold wf_obj. intros Hid Hu. revert acc.
  induction props as [|[k' v] props IH]; simpl; intros acc Hnd Hor; [reflexivity|].
  inversion Hnd as [|? ? Hk Hnd']; subst.
  destruct (String.eqb_spec k' k) as [->|Hne].
  - rewrite IH; [|assumption|right; exact Hk].
    apply get_None_iff in Hk. rewrite Hk, get_set.
    unfold renameUDID. destruct (String.eqb_spec k "udid"); [tauto|].
    now rewrite String.eqb_refl.
  - rewrite IH; [|assumption|].
    + rewrite get_set.
      destruct (String.eqb_spec (renameUDID v k') k) as [Heq|_]; [|reflexivity].
      unfold renameUDID in Heq. destruct (String.eqb_spec k' "udid"); congruence.
    + destruct Hor as [Hacc | Hnot]; [|right; tauto].
      left. rewrite get_set.
      destruct (String.eqb_spec (renameUDID v k') k) as [Heq|_]; [|exact Hacc].
      unfold renameUDID in Heq. destruct (String.eqb_spec k' "udid"); congruence.
Qed.

Lemma get_assign_renamed_id_absent (props acc : Obj) :
  ~ In "id" (keys props) -> ~ In "udid" (keys props) ->
  get (assign_renamed acc props) "id" = get acc "id".
Proof.
  revert acc. induction props as [|[k v] props IH]; simpl; intros acc Hid Hu; [reflexivity|].
  rewrite IH by tauto. rewrite get_set.
  destruct (String.eqb_spec (renameUDID v k) "id") as [Heq|_]; [|reflexivity].
  unfold renameUDID in Heq. destruct (String.eqb_spec k "udid"); [tauto|].
  subst. tauto.
Qed.

Lemma assign_renamed_app (p1 p2 acc : Obj) :
  assign_renamed acc (p1 ++ p2) = assign_renamed (assign_renamed acc p1) p2.
Proof. apply fold_left_app. Qed.

(** X6.  For every value, the result of [remapSimUtilsObject] is an object that
    has no property [udid]. *)
Theorem remapSimUtilsObject_normalizes (device : JSVal) :
  normalized (remapSimUtilsObject device).
Proof.
  exists (Lodash.mapKeys device renameUDID). split; [reflexivity|]. split.
  - apply assign_renamed_wf. constructor.
  - apply assign_renamed_no_udid. reflexivity.
Qed.

(** X8.  A descriptor that has no property [udid] is returned as it is. *)
Theorem remapSimUtilsObject_without_udid (o : Obj) :
  wf_obj o ->
  get o "udid" = None ->
  remapSimUtilsObject (VObj o) = VObj o.
Proof.
  intros Hwf Hu. apply get_None_iff in Hu.
  unfold remapSimUtilsObject, Lodash.mapKeys. simpl.
  fold (assign_renamed [] o).
  now rewrite assign_renamed_fresh.
Qed.

(** X7.  Normalizing twice is normalizing once. *)
Theorem remapSimUtilsObject_idempotent (device : JSVal) :
  remapSimUtilsObject (remapSimUtilsObject device) = remapSimUtilsObject device.
Proof.
  destruct (remapSimUtilsObject_normalizes device) as (o & -> & Hwf & Hu).
  unfold remapSimUtilsObject at 1. unfold Lodash.mapKeys. simpl.
  fold (assign_renamed [] o).
  apply get_None_iff in Hu.
  now rewrite assign_renamed_fresh.
Qed.

(** X9.  Whatever the descriptor has under [id] and [udid], every other property
    keeps its key and its value. *)
Theorem remapSimUtilsObject_keeps_properties_other_than_id (o : Obj) k :
  wf_obj o ->
  k <> "id" ->
  k <> "udid" ->
  get (Lodash.own_props (remapSimUtilsObject (VObj o))) k = get o k.
Proof.
  intros Hwf Hid Hu. simpl. unfold Lodash.mapKeys. simpl.
  fold (assign_renamed [] o).
  rewrite get_assign_renamed_other by auto.
  now destruct (get o k).
Qed.

(** X10.  The property [id] of the result has the value of the last of the
    properties [id] and [udid] of the descriptor. *)
Theorem remapSimUtilsObject_id_is_last_of_id_and_udid (pre post : Obj) k v :
  k = "id" \/ k = "udid" ->
  ~ In "id" (keys post) ->
  ~ In "udid" (keys post) ->
  get (Lodash.own_props (remapSimUtilsObject (VObj (pre ++ (k, v) :: post)))) "id"
  = Some v.
Proof.
  intros Hk Hid Hu. simpl. unfold Lodash.mapKeys. simpl.
  fold (assign_renamed [] (pre ++ (k, v) :: post)).
  rewrite assign_renamed_app. simpl.
  fold (assign_renamed (set (assign_renamed [] pre) (renameUDID v k) v) post).
  rewrite get_assign_renamed_id_absent, get_set by assumption.
  assert (Hr : renameUDID v k = "id") by (destruct Hk as [-> | ->]; reflexivity).
  now rewrite Hr.
Qed.

(** X11.  [remapSimUtilsObject] invents nothing: each property of the result has
    the value of a property of the argument whose key was renamed to its
    key, and the result has no more properties than the argument. *)
Theorem remapSimUtilsObject_properties_come_from_argument (device : JSVal) :
  let props := Lodash.own_props device in
  let props' := Lodash.own_props (remapSimUtilsObject device) in
  Forall (fun kv => exists k, In (k, snd kv) props /\ renameUDID (snd kv) k = fst kv) props'
  /\ List.length props' <= List.length props.
Proof.
  simpl. split.
  - apply Forall_forall. intros kv Hin.
    apply (assign_renamed_origin (Lodash.own_props device) []) in Hin as [[] | H].
    exact H.
  - apply (assign_renamed_length (Lodash.own_props device) []).
Qed.

End RemapProperties.

(** ** Arrays and lists of descriptors *)

Section ArrayProperties.

Import JsObject.

Lemma string_of_index_inj i j :
  Lodash.string_of_index i = Lodash.string_of_index j -> i = j.
Proof.
  unfold Lodash.string_of_index. intros H.
  apply (f_equal NilEmpty.uint_of_string) in H.
  rewrite !NilEmpty.usu in H. injection H as H.
  apply (f_equal Nat.of_uint) in H.
  now rewrite !Unsigned.of_to in H.
Qed.

Lemma string_of_index_not_udid i : Lodash.string_of_index i <> "udid".
Proof.
  unfold Lodash.string_of_index.
  destruct (Nat.to_uint i); simpl; discriminate.
Qed.

Lemma in_keys_indexed (l : list JSVal) i k :
  In k (keys (Lodash.indexed i l)) -> exists j, i <= j /\ k = Lodash.string_of_index j.
Proof.
  revert i. induction l as [|v l IH]; simpl; intros i; [intros []|].
  intros [<- | Hin]; [eauto|].
  apply IH in Hin as (j & Hj & ->). exists j. split; [lia | reflexivity].
Qed.

Lemma indexed_wf (l : list JSVal) i : wf_obj (Lodash.indexed i l).
Proof.
  unfold wf_obj. revert i. induction l as [|v l IH]; simpl; intros i; constructor.
  - intros Hin. apply in_keys_indexed in Hin as (j & Hj & Heq).
    apply string_of_index_inj in Heq. lia.
  - apply IH.
Qed.

Lemma indexed_no_udid (l : list JSVal) i : ~ In "udid" (keys (Lodash.indexed i l)).
Proof.
  intros Hin. apply in_keys_indexed in Hin as (j & _ & Heq).
  symmetry in Heq. now apply string_of_index_not_udid in Heq.
Qed.

Lemma get_indexed (l : list JSVal) i n :
  get (Lodash.indexed i l) (Lodash.string_of_index (i + n)) = nth_error l n.
Proof.
  revert i n. induction l as [|v l IH]; intros i n; simpl.
  - now destruct n.
  - destruct n as [|n]; simpl.
    + now rewrite Nat.add_0_r, String.eqb_refl.
    + destruct (String.eqb_spec (Lodash.string_of_index i)
                                (Lodash.string_of_index (i + S n))) as [Heq|_].
      * apply string_of_index_inj in Heq. lia.
      * replace (i + S n) with (S i + n) by lia. apply IH.
Qed.

(** X12.  The renaming does not go into the values: of an array (the list of
    descriptors the backend answers with) [remapSimUtilsObject] makes the
    object that has each element, as it is, under its index. *)
Theorem remapSimUtilsObject_of_array_keeps_elements (l : list JSVal) :
  remapSimUtilsObject (VArr l) = VObj (Lodash.indexed 0 l)
  /\ forall n,
       get (Lodash.own_props (remapSimUtilsObject (VArr l))) (Lodash.string_of_index n)
       = nth_error l n.
Proof.
  assert (Heq : remapSimUtilsObject (VArr l) = VObj (Lodash.indexed 0 l)).
  { unfold remapSimUtilsObject, Lodash.mapKeys. simpl.
    fold (assign_renamed [] (Lodash.indexed 0 l)).
    rewrite assign_renamed_fresh; auto using indexed_wf, indexed_no_udid. }
  split; [exact Heq|].
  intros n. rewrite Heq. simpl. apply (get_indexed l 0 n).
Qed.

Variable B : Type.
Variable C : Collaborators B.

(** X13.  [_getDevicesWithProperties]: for an array of the backend the result is
    an array of the same length whose elements are the elements of the
    backend, each one normalized; for any other answer it throws a
    [TypeError]; the error of the backend is thrown as it is. *)
Theorem getDevicesWithProperties_returns_normalized_list (w : World B) q :
  match fst (applesimutils C GetDevicesWithProperties [q] (ext w)) with
  | Ok (VArr l) =>
      exists l',
        result (_getDevicesWithProperties C q) w = Ok (VArr l')
        /\ List.length l' = List.length l
        /\ Forall normalized l'
        /\ forall n, nth_error l' n = option_map remapSimUtilsObject (nth_error l n)
  | Ok _ => result (_getDevicesWithProperties C q) w = Err TypeError
  | Err e => result (_getDevicesWithProperties C q) w = Err e
  end.
Proof.
  change (_getDevicesWithProperties C q) with (_getDevicesWithProperties_1 C q).
  unfold result, _getDevicesWithProperties_1, bind, sim.
  destruct (applesimutils C GetDevicesWithProperties [q] (ext w)) as [[v|e] b]; simpl;
    [|reflexivity].
  destruct v; simpl; try reflexivity.
  exists (map remapSimUtilsObject elems). repeat split.
  - apply length_map.
  - apply Forall_forall. intros d Hin. apply in_map_iff in Hin as (x & <- & _).
    apply remapSimUtilsObject_normalizes.
  - intros n. apply nth_error_map.
Qed.

End ArrayProperties.

(** ** The methods that do not talk to the simulator *)

Section HostProperties.

Import Host.

Variable path_join : string -> string -> string.
Variable exec : string -> Res JSVal.
Variable trim : JSVal -> string.

(** X14.  [getBundleIdFromBinary] returns a bundle id only when the command ran,
    its result has an output and the trimmed output is not empty, and the
    id is that trimmed output.  In every other case, whatever failed, it
    throws the one error that names [appPath]; the error of the command is
    not passed on. *)
Theorem getBundleIdFromBinary_nonempty_or_not_found (appPath : string) :
  match getBundleIdFromBinary path_join exec trim appPath with
  | Returns bundleId =>
      bundleId <> EmptyString
      /\ exists result stdout,
           exec (PlistBuddy_command path_join appPath) = Ok result
           /\ get_prop result "stdout" = Ok stdout
           /\ bundleId = trim stdout
  | ThrowsError message =>
      message = not_found_message appPath
      /\ forall result stdout,
           exec (PlistBuddy_command path_join appPath) = Ok result ->
           get_prop result "stdout" = Ok stdout ->
           trim stdout = EmptyString
  end.
Proof.
  unfold getBundleIdFromBinary, getBundleIdFromBinary_try.
  destruct (exec (PlistBuddy_command path_join appPath)) as [result|e].
  2:{ split; [reflexivity | discriminate]. }
  destruct (get_prop result "stdout") as [stdout|e] eqn:Hout.
  2:{ split; [reflexivity|]. intros r s Hr Hs. congruence. }
  simpl. destruct (String.eqb_spec (trim stdout) EmptyString) as [Heq|Hne].
  - split; [reflexivity|]. intros r s Hr Hs. congruence.
  - split; [exact Hne|]. eauto.
Qed.

(** X15.  With helpers of [configuration] that throw, [validateDeviceConfig]
    accepts exactly the configurations that have a [binaryPath] and a [name]
    that count as true; a missing or empty [binaryPath] is reported before
    the [name] is looked at. *)
Theorem validateDeviceConfig_accepts_iff_both_fields (e1 e2 : Exn) (deviceConfig : JSVal) :
  let validate := validateDeviceConfig (Err e1) (Err e2) deviceConfig in
  (validate = Ok VUndefined
   <-> exists binaryPath name,
         get_prop deviceConfig "binaryPath" = Ok binaryPath
         /\ truthy binaryPath = true
         /\ get_prop deviceConfig "name" = Ok name
         /\ truthy name = true)
  /\ (forall binaryPath,
        get_prop deviceConfig "binaryPath" = Ok binaryPath ->
        truthy binaryPath = false ->
        validate = Err e1).
Proof.
  unfold validateDeviceConfig. simpl. split; [split|].
  - destruct (get_prop deviceConfig "binaryPath") as [bp|e]; [|discriminate].
    destruct (truthy bp) eqn:Hbp; [|discriminate].
    destruct (get_prop deviceConfig "name") as [nm|e]; [|discriminate].
    destruct (truthy nm) eqn:Hnm; [|discriminate].
    intros _. exists bp, nm. auto.
  - intros (bp & nm & -> & -> & -> & ->). reflexivity.
  - intros bp -> ->. reflexivity.
Qed.

End HostProperties.

(** ** Concrete runs of the further properties *)

Lemma session_event_follows_backend_success_witness :
  trace (session reliable [CallBoot (VStr "ABCD-1")] (start tt []))
  = [SimCall Boot [VStr "ABCD-1"] (Ok (VBool true))]
    ++ Emit "bootDevice" (bootDevice_payload (VBool true) (VStr "ABCD-1")) :: []
  /\ event_context [SimCall Boot [VStr "ABCD-1"] (Ok (VBool true))] "bootDevice"
                   (bootDevice_payload (VBool true) (VStr "ABCD-1")).
Proof.
  split; [reflexivity|].
  apply (session_event_follows_backend_success
           reliable [CallBoot (VStr "ABCD-1")] tt [] _ _ _ []).
  reflexivity.
Defined.

Lemma session_without_lifecycle_calls_emits_nothing_witness :
  let calls := [CallInstallApp (VStr "ABCD-1") (VStr "/path/App.app");
                CallTerminate (VStr "ABCD-1") (VStr "com.example.app");
                CallCleanup (VStr "ABCD-1") (VStr "com.example.app")] in
  Forall (fun c => emits_events c = false) calls
  /\ events (trace (session reliable calls booted)) = events (trace booted).
Proof.
  intros calls.
  assert (H : Forall (fun c => emits_events c = false) calls)
    by (repeat constructor).
  split; [exact H|].
  exact (session_without_lifecycle_calls_emits_nothing reliable booted H).
Defined.

Lemma session_without_registry_calls_keeps_ownership_witness :
  let calls := [CallLaunchApp (VStr "ABCD-1") (VStr "com.example.app") (VArr []);
                CallResetContentAndSettings (VStr "ABCD-1");
                CallShutdown (VStr "ABCD-1")] in
  Forall (fun c => uses_registry c = false) calls
  /\ owned (session reliable calls booted) = owned booted.
Proof.
  intros calls.
  assert (H : Forall (fun c => uses_registry c = false) calls)
    by (repeat constructor).
  split; [exact H|].
  exact (proj1 (session_without_registry_calls_keeps_ownership reliable booted H)).
Defined.

Lemma remapSimUtilsObject_without_udid_witness :
  JsObject.wf_obj [("id", VStr "ABCD-1"); ("name", VStr "iPhone-Test")]
  /\ JsObject.get [("id", VStr "ABCD-1"); ("name", VStr "iPhone-Test")] "udid" = None
  /\ remapSimUtilsObject (VObj [("id", VStr "ABCD-1"); ("name", VStr "iPhone-Test")])
     = VObj [("id", VStr "ABCD-1"); ("name", VStr "iPhone-Test")].
Proof.
  assert (Hwf : JsObject.wf_obj [("id", VStr "ABCD-1"); ("name", VStr "iPhone-Test")]).
  { unfold JsObject.wf_obj. simpl. repeat constructor; simpl; intuition discriminate. }
  split; [exact Hwf|]. split; [reflexivity|].
  exact (remapSimUtilsObject_without_udid Hwf eq_refl).
Defined.

Lemma sim_descriptor_with_id_wf : JsObject.wf_obj sim_descriptor_with_id.
Proof.
  unfold JsObject.wf_obj, sim_descriptor_with_id. simpl.
  repeat constructor; simpl; intuition discriminate.
Defined.

Lemma remapSimUtilsObject_keeps_properties_other_than_id_witness :
  JsObject.wf_obj sim_descriptor_with_id
  /\ "os" <> "id"
  /\ "os" <> "udid"
  /\ JsObject.get (Lodash.own_props (remapSimUtilsObject (VObj sim_descriptor_with_id))) "os"
     = JsObject.get sim_descriptor_with_id "os".
Proof.
  assert (H1 : "os" <> "id") by discriminate.
  assert (H2 : "os" <> "udid") by discriminate.
  exact (conj sim_descriptor_with_id_wf
           (conj H1
              (conj H2
                 (remapSimUtilsObject_keeps_properties_other_than_id
                    sim_descriptor_with_id_wf H1 H2)))).
Defined.

Lemma remapSimUtilsObject_id_is_last_of_id_and_udid_witness :
  ("udid" = "id" \/ "udid" = "udid")
  /\ ~ In "id" (JsObject.keys [("os", VStr "17.0")])
  /\ ~ In "udid" (JsObject.keys [("os", VStr "17.0")])
  /\ JsObject.get
       (Lodash.own_props
          (remapSimUtilsObject
             (VObj ([("name", VStr "iPhone-Test"); ("id", VStr "SIM-1")]
                    ++ ("udid", VStr "ABCD-1") :: [("os", VStr "17.0")]))))
       "id"
     = Some (VStr "ABCD-1").
Proof.
  assert (H0 : "udid" = "id" \/ "udid" = "udid") by (right; reflexivity).
  assert (H1 : ~ In "id" (JsObject.keys [("os", VStr "17.0")]))
    by (simpl; intuition discriminate).
  assert (H2 : ~ In "udid" (JsObject.keys [("os", VStr "17.0")]))
    by (simpl; intuition discriminate).
  exact (conj H0
           (conj H1
              (conj H2
                 (remapSimUtilsObject_id_is_last_of_id_and_udid
                    [("name", VStr "iPhone-Test"); ("id", VStr "SIM-1")]
                    [("os", VStr "17.0")] (VStr "ABCD-1") H0 H1 H2)))).
Defined.
